(** * Pit-stop scatterplot: the relational join and the domain/scale core

    A shallow embedding of the computation done by the script of the
    chart page (its frontmatter): loading and grouping the tables,
    resolving the rows related to a pit stop, the observations, the
    domain, the range, the scales, the axes and the dots.

    The script is a straight-line TypeScript program over the JavaScript
    built-ins ([Number], [String], [Date], [Array.prototype.filter/map/
    reverse], template literals, optional chaining) and over d3
    ([d3-array]: [group], [InternMap], [minIndex], [maxIndex];
    [d3-scale]: [scaleLinear]).  Built-ins and d3 functions are library
    code: each is embedded here from its definition (ECMA-262, the d3
    sources) and named after it.

    Conventions of the embedding:
    - a JavaScript value that may be [undefined] is an [option]
      ([None] is [undefined]);
    - a number is a [number]: [NaN], an infinity, or a finite value held
      as a rational.  [double] rounds a rational to the nearest double
      (ties to even).  It is applied where the result of an operation
      decides a step of the computation: to the value of a numeric
      string, and in [tickIncrement] and [nice] to every operand and
      intermediate result, so that [Math.floor], [Math.ceil] and the
      comparisons see the double that the code sees.  The bounds that
      [nice] returns and the values of [bimap] are kept exact: the code
      holds their nearest doubles.  The sign of zero is not modelled;
    - an expression that may throw evaluates to a [completion];
    - a two-element array literal [[a, b]] is a pair. *)

From Stdlib Require Import ZArith QArith Qround Qpower Lia Lqa Ascii String List Bool Decimal.
From stdpp Require Import gmap strings list fin_maps.

Local Open Scope Z_scope.

(** ** Numbers *)

Inductive number : Type :=
| NaN
| Inf (negative : bool)
| Fin (q : Q).

Definition Qlt_bool (a b : Q) : bool := negb (Qle_bool b a).

(** *** Rounding to the nearest double *)

Definition pow2 (k : Z) : Q := (2 ^ k)%Q.

(** The integer nearest to [v], the even one of two that are equally
    near. *)
Definition round_half_even (v : Q) : Z :=
  let f := Qfloor v in
  match Qcompare (v - inject_Z f) (1 # 2) with
  | Lt => f
  | Gt => f + 1
  | Eq => if Z.even f then f else f + 1
  end.

(** [floor (log2 q)] for [q > 0]. *)
Definition floor_log2 (q : Q) : Z :=
  let e := Z.log2 (Qnum q) - Z.log2 (Z.pos (Qden q)) in
  if Qle_bool (pow2 e) q then e else e - 1.

(** The exponent of the binade of [q > 0]; below 2^-1022 the doubles
    are evenly spaced. *)
Definition exponent (q : Q) : Z := Z.max (floor_log2 q) (-1022).

(** The nearest multiple of the spacing of the doubles around [q > 0]:
    53 significant bits. *)
Definition double_pos (q : Q) : Q :=
  (inject_Z (round_half_even (q / pow2 (exponent q - 52))) * pow2 (exponent q - 52))%Q.

(** The double nearest to [q], in lowest terms.  Overflow to an infinity
    is decided by the caller. *)
Definition double (q : Q) : Q :=
  let r := Qred q in
  Qred (if Qlt_bool 0 r then double_pos r
        else if Qlt_bool r 0 then (- double_pos (- r))%Q
        else 0%Q).

(** [a < b] on numbers (ECMA-262 Number::lessThan; [undefined], that is
    a comparison with [NaN], counts as [false]). *)
Definition num_lt (a b : number) : bool :=
  match a, b with
  | NaN, _ | _, NaN => false
  | Inf true, Inf true => false
  | Inf true, _ => true
  | _, Inf true => false
  | Inf false, _ => false
  | Fin _, Inf false => true
  | Fin x, Fin y => Qlt_bool x y
  end.

(** [a >= b]: the negation of [a < b] unless an operand is [NaN]. *)
Definition num_ge (a b : number) : bool :=
  match a, b with
  | NaN, _ | _, NaN => false
  | _, _ => negb (num_lt a b)
  end.

(** [a <= b] *)
Definition num_le (a b : number) : bool := num_ge b a.

(** [a === b] on numbers. *)
Definition num_eq (a b : number) : bool :=
  match a, b with
  | Inf s, Inf t => Bool.eqb s t
  | Fin x, Fin y => Qeq_bool x y
  | _, _ => false
  end.

Definition is_NaN (a : number) : bool :=
  match a with NaN => true | _ => false end.

Definition num_neg (a : number) : number :=
  match a with
  | NaN => NaN
  | Inf s => Inf (negb s)
  | Fin q => Fin (- q)
  end.

(** The value of a decimal or integer literal as a number: the nearest
    double; at and above 2^1024 - 2^970 that is [Infinity]. *)
Definition of_Q (q : Q) : number :=
  let bound := inject_Z (2 ^ 1024 - 2 ^ 970) in
  if Qle_bool bound q then Inf false
  else if Qle_bool q (- bound) then Inf true
  else Fin (double q).

Definition of_Z (z : Z) : number := of_Q (inject_Z z).

(** ** [Number(value)]: StringToNumber (ECMA-262 7.1.4.1.1)

    A character of a string is a code unit below 256. *)

Definition code (c : ascii) : Z := Z.of_N (N_of_ascii c).

(** StrWhiteSpaceChar: TAB, LF, VT, FF, CR, SP, NBSP. *)
Definition StrWhiteSpaceChar (c : ascii) : bool :=
  let n := code c in
  ((9 <=? n) && (n <=? 13)) || (n =? 32) || (n =? 160).

Fixpoint drop_ws (s : list ascii) : list ascii :=
  match s with
  | c :: rest => if StrWhiteSpaceChar c then drop_ws rest else s
  | [] => []
  end.

Definition trim (s : list ascii) : list ascii :=
  rev (drop_ws (rev (drop_ws s))).

Definition digit_of (radix : Z) (c : ascii) : option Z :=
  let n := code c in
  let v :=
    if (48 <=? n) && (n <=? 57) then Some (n - 48)
    else if (97 <=? n) && (n <=? 102) then Some (n - 87)
    else if (65 <=? n) && (n <=? 70) then Some (n - 55)
    else None in
  match v with
  | Some d => if d <? radix then Some d else None
  | None => None
  end.

(** The longest prefix of digits: its value continuing [acc], the number
    of digits read added to [n], and the rest of the input. *)
Fixpoint digits (radix : Z) (s : list ascii) (acc n : Z) : Z * Z * list ascii :=
  match s with
  | c :: rest =>
      match digit_of radix c with
      | Some d => digits radix rest (acc * radix + d) (n + 1)
      | None => (acc, n, s)
      end
  | [] => (acc, n, [])
  end.

Definition is_char (c : ascii) (n : Z) : bool := code c =? n.

(** ExponentPart, optional, up to the end of the literal. *)
Definition ExponentPart (s : list ascii) : option Z :=
  match s with
  | [] => Some 0
  | c :: rest =>
      if is_char c 101 || is_char c 69 then
        let '(sign, ds) :=
          match rest with
          | d :: r => if is_char d 43 then (1, r)
                      else if is_char d 45 then (-1, r) else (1, rest)
          | [] => (1, rest)
          end in
        match digits 10 ds 0 0 with
        | (v, n, []) => if 0 <? n then Some (sign * v) else None
        | _ => None
        end
      else None
  end.

(** mantissa * 10^e *)
Definition decimal_value (mantissa e : Z) : number :=
  if 0 <=? e then of_Q (inject_Z (mantissa * 10 ^ e))
  else of_Q (mantissa # Z.to_pos (10 ^ (- e))).

Definition StrUnsignedDecimalLiteral (s : list ascii) : option number :=
  if String.eqb (string_of_list_ascii s) "Infinity" then Some (Inf false)
  else
    let '(ip, ni, r1) := digits 10 s 0 0 in
    match r1 with
    | c :: r2 =>
        if is_char c 46 then
          let '(m, nf, r3) := digits 10 r2 ip 0 in
          if 0 <? ni + nf then
            match ExponentPart r3 with
            | Some e => Some (decimal_value m (e - nf))
            | None => None
            end
          else None
        else if 0 <? ni then
          match ExponentPart r1 with
          | Some e => Some (decimal_value ip e)
          | None => None
          end
        else None
    | [] => if 0 <? ni then Some (of_Z ip) else None
    end.

Definition StrDecimalLiteral (s : list ascii) : option number :=
  match s with
  | c :: rest =>
      if is_char c 43 then StrUnsignedDecimalLiteral rest
      else if is_char c 45 then option_map num_neg (StrUnsignedDecimalLiteral rest)
      else StrUnsignedDecimalLiteral s
  | [] => None
  end.

(** 0b, 0o and 0x literals (no sign). *)
Definition NonDecimalIntegerLiteral (s : list ascii) : option number :=
  match s with
  | z :: p :: rest =>
      let radix :=
        if is_char p 120 || is_char p 88 then Some 16
        else if is_char p 111 || is_char p 79 then Some 8
        else if is_char p 98 || is_char p 66 then Some 2
        else None in
      match radix with
      | Some r =>
          if is_char z 48 then
            match digits r rest 0 0 with
            | (v, n, []) => if 0 <? n then Some (of_Z v) else None
            | _ => None
            end
          else None
      | None => None
      end
  | _ => None
  end.

Definition StringToNumber (str : string) : number :=
  match trim (list_ascii_of_string str) with
  | [] => Fin 0
  | s =>
      match NonDecimalIntegerLiteral s with
      | Some n => n
      | None =>
          match StrDecimalLiteral s with
          | Some n => n
          | None => NaN
          end
      end
  end.

(** [Number(v)] for a field of a CSV row: a string or [undefined]. *)
Definition Number (v : option string) : number :=
  match v with
  | None => NaN
  | Some s => StringToNumber s
  end.

(** [String(v)], and [${v}] in a template literal. *)
Definition String_ (v : option string) : string :=
  match v with
  | None => "undefined"
  | Some s => s
  end.

(** ** [new Date(value)]

    A [Date] is its time value: milliseconds since the epoch, or [NaN]
    for an invalid date.  Relational operators applied to dates compare
    the time values. *)

Definition Date : Type := number.

Definition DaysInMonth (y m : Z) : Z :=
  if m =? 2 then
    if ((y mod 4 =? 0) && negb (y mod 100 =? 0)) || (y mod 400 =? 0) then 29 else 28
  else if (m =? 4) || (m =? 6) || (m =? 9) || (m =? 11) then 30
  else 31.

(** Day number of the civil date [y]-[m]-[d], day 0 being 1970-01-01. *)
Definition MakeDay (y m d : Z) : Z :=
  let y' := if m <=? 2 then y - 1 else y in
  let era := y' / 400 in
  let yoe := y' - era * 400 in
  let mp := (m + 9) mod 12 in
  let doy := (153 * mp + 2) / 5 + d - 1 in
  let doe := yoe * 365 + yoe / 4 - yoe / 100 + doy in
  era * 146097 + doe - 719468.

Definition msPerDay : Z := 86400000.

Definition fixed_digits (s : list ascii) : option Z :=
  match digits 10 s 0 0 with
  | (v, n, []) => if n =? Z.of_nat (length s) then Some v else None
  | _ => None
  end.

(** The date-only forms of the Date Time String Format, [YYYY],
    [YYYY-MM] and [YYYY-MM-DD], which denote midnight UTC. *)
Definition date_only (s : list ascii) : option (Z * Z * Z) :=
  match s with
  | [y1; y2; y3; y4] =>
      match fixed_digits [y1; y2; y3; y4] with
      | Some y => Some (y, 1, 1)
      | None => None
      end
  | [y1; y2; y3; y4; h1; m1; m2] =>
      match fixed_digits [y1; y2; y3; y4], fixed_digits [m1; m2] with
      | Some y, Some m => if is_char h1 45 then Some (y, m, 1) else None
      | _, _ => None
      end
  | [y1; y2; y3; y4; h1; m1; m2; h2; d1; d2] =>
      match fixed_digits [y1; y2; y3; y4], fixed_digits [m1; m2], fixed_digits [d1; d2] with
      | Some y, Some m, Some d =>
          if is_char h1 45 && is_char h2 45 then Some (y, m, d) else None
      | _, _, _ => None
      end
  | _ => None
  end.

Section DateParse.

(** What [Date.parse] returns for a string that is not a valid
    date-only form: date-times without an offset are local times, and
    other formats are implementation-defined. *)
Variable host_date_parse : string -> number.

Definition Date_parse (str : string) : number :=
  match date_only (list_ascii_of_string str) with
  | Some (y, m, d) =>
      if (1 <=? m) && (m <=? 12) && (1 <=? d) && (d <=? DaysInMonth y m)
      then of_Z (MakeDay y m d * msPerDay)
      else host_date_parse str
  | None => host_date_parse str
  end.

(** [new Date(v)]: [new Date(undefined)] is an invalid date. *)
Definition new_Date (v : option string) : Date :=
  match v with
  | None => NaN
  | Some s => Date_parse s
  end.

End DateParse.

(** ** Rows and indices *)

(** A row of a table loaded by [d3.csv]: an object whose properties are
    the columns, each a string.  A property the table has no column for
    reads as [undefined]. *)
Abbreviation Row := (gmap string string).

(** [row.field] *)
Definition field (r : Row) (name : string) : option string := r !! name.

(** An [InternMap] whose keys are strings. *)
Abbreviation InternMap V := (gmap string V).

(** [map.get(key)]: the value stored under [key], or [undefined].  No
    string key is stored under [undefined]. *)
Definition InternMap_get {V} (m : InternMap V) (key : option string) : option V :=
  match key with
  | Some k => m !! k
  | None => None
  end.

(** One step of the loop of d3's [group]:
    [const group = groups.get(key); if (group) group.push(value);
     else groups.set(key, [value]);] *)
Definition group_step (keyof : Row -> string)
    (groups : InternMap (list Row)) (value : Row) : InternMap (list Row) :=
  let key := keyof value in
  match groups !! key with
  | Some g => <[key := g ++ [value]]> groups
  | None => <[key := [value]]> groups
  end.

(** [group(values, keyof)] *)
Definition group (keyof : Row -> string) (values : list Row) : InternMap (list Row) :=
  fold_left (group_step keyof) values ∅.

(** [group(values, keyof1, keyof2)]: each group of the first level is
    regrouped by the second key. *)
Definition group2 (keyof1 keyof2 : Row -> string) (values : list Row)
    : InternMap (InternMap (list Row)) :=
  group keyof2 <$> group keyof1 values.

(** Rows of [values] whose key is [k], in the order of [values]. *)
Definition keyed (keyof : Row -> string) (k : string) (values : list Row) : list Row :=
  filter (fun r => keyof r = k) values.

(** The four lookup tables as loaded. *)
Record Tables : Type := {
  races_csv : list Row;
  drivers_csv : list Row;
  constructors_csv : list Row;
  results_csv : list Row
}.

Definition races (t : Tables) : InternMap (list Row) :=
  group (fun d => String_ (field d "raceId")) (races_csv t).
Definition drivers (t : Tables) : InternMap (list Row) :=
  group (fun d => String_ (field d "driverId")) (drivers_csv t).
Definition constructors (t : Tables) : InternMap (list Row) :=
  group (fun d => String_ (field d "constructorId")) (constructors_csv t).
Definition results (t : Tables) : InternMap (InternMap (list Row)) :=
  group2 (fun d => String_ (field d "raceId"))
         (fun d => String_ (field d "driverId")) (results_csv t).

(** ** Completions *)

Inductive error : Type := TypeError.

Inductive completion (A : Type) : Type :=
| Normal (a : A)
| Throw (e : error).
Arguments Normal {A} a.
Arguments Throw {A} e.

#[global] Instance completion_ret : MRet completion := fun A a => Normal a.

#[global] Instance completion_bind : MBind completion := fun A B k c =>
  match c with
  | Normal a => k a
  | Throw e => Throw e
  end.

(** [values.map(f)], where [f] may throw: elements are visited in
    order and the first exception ends the call. *)
Fixpoint Array_map {A B} (f : A -> completion B) (values : list A) : completion (list B) :=
  match values with
  | [] => Normal []
  | v :: rest =>
      b ← f v;
      bs ← Array_map f rest;
      Normal (b :: bs)
  end.

(** [v[0]]: reading a property of [undefined] throws a TypeError; an
    index past the end of an array reads as [undefined]. *)
Definition first {A} (v : option (list A)) : completion (option A) :=
  match v with
  | None => Throw TypeError
  | Some l => Normal (head l)
  end.

(** [v.name], [v] a row or [undefined]. *)
Definition prop (v : option Row) (name : string) : completion (option string) :=
  match v with
  | None => Throw TypeError
  | Some r => Normal (field r name)
  end.

(** [v?.name] *)
Definition opt_prop (v : option Row) (name : string) : option string :=
  match v with
  | None => None
  | Some r => field r name
  end.

(** ** Related rows *)

Definition getRace (t : Tables) (raceId : string) : completion (option Row) :=
  first (InternMap_get (races t) (Some raceId)).

Definition getDriver (t : Tables) (driverId : string) : completion (option Row) :=
  first (InternMap_get (drivers t) (Some driverId)).

(** [constructors.get(results.get(raceId)?.get(driverId)[0].constructorId)[0]]:
    the optional chain ends at [.constructorId]; when [results.get(raceId)]
    is [undefined] the chain is [undefined], and the rest of it is not
    evaluated. *)
Definition getContructor (t : Tables) (raceId driverId : string) : completion (option Row) :=
  constructorId ←
    match InternMap_get (results t) (Some raceId) with
    | None => Normal None
    | Some byDriver =>
        row ← first (InternMap_get byDriver (Some driverId));
        prop row "constructorId"
    end;
  first (InternMap_get (constructors t) constructorId).

(** ** Observations *)

Record Observation : Type := {
  y : number;
  x : Date;
  race : option string;
  driver : string;
  constructor : option string;
  lap : option string
}.

(** The filter predicate [d => Number(d.milliseconds) < 120000]. *)
Definition retained (d : Row) : bool :=
  num_lt (Number (field d "milliseconds")) (of_Z 120000).

Section Data.

Variable host_date_parse : string -> number.

(** The callback of [map]. *)
Definition observation (t : Tables) (d : Row) : completion Observation :=
  race ← getRace t (String_ (field d "raceId"));
  driver ← getDriver t (String_ (field d "driverId"));
  constructor ← getContructor t (String_ (field d "raceId")) (String_ (field d "driverId"));
  surname ← prop driver "surname";
  Normal {|
    y := Number (field d "milliseconds");
    x := new_Date host_date_parse (opt_prop race "date");
    race := opt_prop race "name";
    driver := String_ (opt_prop driver "forename") ++ " " ++ String_ surname;
    constructor := opt_prop constructor "name";
    lap := field d "lap"
  |}.

Definition data (t : Tables) (pitstops : list Row) : completion (list Observation) :=
  Array_map (observation t) (filter (fun d => retained d = true) pitstops).

End Data.

(** ** The domain: d3's [minIndex] and [maxIndex] *)

Section Extent.

Context {A : Type}.

(** The accessor; both accessors of the script return a number or a
    date, never [null] or [undefined], so the test [value != null] of
    the loop always holds. *)
Variable valueof : A -> number.

(** The loop of [minIndex]: [index] is the index of the last element
    visited, [min] is [undefined] until a comparable value is seen:
    [if (min > value || (min === undefined && value >= value))
       min = value, minIndex = index;] *)
Fixpoint minIndex_loop (values : list A) (index : Z) (min : option number)
    (minIndex : Z) : Z :=
  match values with
  | [] => minIndex
  | v :: rest =>
      let index := index + 1 in
      let value := valueof v in
      let smaller :=
        match min with
        | Some m => num_lt value m
        | None => num_ge value value
        end in
      if smaller then minIndex_loop rest index (Some value) index
      else minIndex_loop rest index min minIndex
  end.

Definition minIndex (values : list A) : Z :=
  minIndex_loop values (-1) None (-1).

(** [maxIndex]: the same loop with [max < value]. *)
Fixpoint maxIndex_loop (values : list A) (index : Z) (max : option number)
    (maxIndex : Z) : Z :=
  match values with
  | [] => maxIndex
  | v :: rest =>
      let index := index + 1 in
      let value := valueof v in
      let greater :=
        match max with
        | Some m => num_lt m value
        | None => num_ge value value
        end in
      if greater then maxIndex_loop rest index (Some value) index
      else maxIndex_loop rest index max maxIndex
  end.

Definition maxIndex (values : list A) : Z :=
  maxIndex_loop values (-1) None (-1).

End Extent.

(** [values[i]]: [undefined] when [i] is not an index of the array, in
    particular for [-1]. *)
Definition element {A} (values : list A) (i : Z) : option A :=
  if i <? 0 then None else values !! Z.to_nat i.

(** [o.p] for an observation or [undefined]. *)
Definition member {B} (o : option Observation) (p : Observation -> B) : completion B :=
  match o with
  | None => Throw TypeError
  | Some d => Normal (p d)
  end.

Record Extrema : Type := {
  minX : option Observation;
  maxX : option Observation;
  minY : option Observation;
  maxY : option Observation
}.

Definition extrema (data : list Observation) : Extrema := {|
  minX := element data (minIndex x data);
  maxX := element data (maxIndex x data);
  minY := element data (minIndex y data);
  maxY := element data (maxIndex y data)
|}.

Record Domain : Type := {
  domain_x : Date * Date;
  domain_y : number * number
}.

Definition domain (data : list Observation) : completion Domain :=
  let e := extrema data in
  x0 ← member (minX e) x;
  x1 ← member (maxX e) x;
  y0 ← member (minY e) y;
  y1 ← member (maxY e) y;
  Normal {| domain_x := (x0, x1); domain_y := (y0, y1) |}.

(** ** The range *)

Definition margin_top : Z := 20.
Definition margin_right : Z := 20.
Definition margin_bottom : Z := 20.
Definition margin_left : Z := 60.
Definition width : Z := 800.
Definition innerWidth : Z := width - margin_right - margin_left.
Definition height : Z := 500.
Definition innerHeight : Z := height - margin_top - margin_bottom.

(** ** d3's linear scale, on finite numbers *)

Local Open Scope Q_scope.

(** [normalize(a, b)]: [x => (x - a) / b] with [b -= a], and the
    constant 0.5 when [b - a] is zero. *)
Definition normalize (a b : Q) (v : Q) : Q :=
  if Qeq_bool (b - a) 0 then 1 # 2 else (v - a) / (b - a).

(** [interpolateNumber(a, b)]: [t => a * (1 - t) + b * t]. *)
Definition interpolateNumber (a b : Q) (t : Q) : Q :=
  a * (1 - t) + b * t.

(** [bimap(domain, range, interpolate)] *)
Definition bimap (domain range : Q * Q) (v : Q) : Q :=
  let '(d0, d1) := domain in
  let '(r0, r1) := range in
  if Qlt_bool d1 d0 then interpolateNumber r1 r0 (normalize d1 d0 v)
  else interpolateNumber r0 r1 (normalize d0 d1 v).

Definition decimal_digits (p : positive) : Z :=
  Z.of_nat (Decimal.nb_digits (Pos.to_uint p)).

(** [Math.floor(Math.log10(q))] for [q > 0]: the quotient of an
    [n]-digit numerator by a [d]-digit denominator lies strictly between
    10^(n-d-1) and 10^(n-d+1). *)
Definition floor_log10 (q : Q) : Z :=
  let p := (decimal_digits (Z.to_pos (Qnum q)) - decimal_digits (Qden q))%Z in
  if Qle_bool (10 ^ p) q then p else (p - 1)%Z.

(** The doubles [Math.sqrt(50)], [Math.sqrt(10)] and [Math.sqrt(2)]. *)
Definition e10 : Q := 124395540479019 # 17592186044416.
Definition e5 : Q := 7120816245988179 # 2251799813685248.
Definition e2 : Q := 6369051672525773 # 4503599627370496.

(** [tickIncrement(start, stop, count)], every operation on doubles.
    [Math.floor(Math.log10(step))] is the floor of the logarithm of the
    double [step].  When [stop = start] the step is 0, its logarithm is
    [-Infinity] and so is the increment; when [stop < start] the
    logarithm, and the increment, are [NaN]. *)
Definition tickIncrement (start stop : Q) (count : positive) : number :=
  let step := double (double (double stop - double start) / inject_Z (Z.pos count)) in
  if Qlt_bool 0 step then
    let power := floor_log10 step in
    let error := double (step / double (10 ^ power)) in
    let factor : Q :=
      if Qle_bool e10 error then 10
      else if Qle_bool e5 error then 5
      else if Qle_bool e2 error then 2
      else 1 in
    if (power <? 0)%Z then Fin (- double (double (10 ^ (- power)) / factor))
    else Fin (double (double (10 ^ power) * factor))
  else if Qeq_bool step 0 then Inf true
  else NaN.

(** The loop of [scale.nice()], [count] being 10.  [Some] is the domain
    assigned when the step repeats; [None] is a return that leaves the
    domain as it was: the [break] on a zero or [NaN] step and the end of
    the ten iterations.  An infinite step turns [start] and [stop] into
    [NaN], the next step is [NaN], and the loop breaks.

    [start] and [stop] are kept as the exact product or quotient of the
    integer by the step; the code holds the nearest double, which is
    [double start] and [double stop] wherever they are used.  The
    quotient or product given to [Math.floor] and [Math.ceil] is the
    double that the code computes. *)
Fixpoint nice_loop (maxIter : nat) (start stop : Q) (prestep : option number)
    : option (Q * Q) :=
  match maxIter with
  | O => None
  | S n =>
      let step := tickIncrement start stop 10 in
      if match prestep with Some p => num_eq step p | None => false end
      then Some (start, stop)
      else
        match step with
        | Fin s =>
            if Qlt_bool 0 s then
              nice_loop n (inject_Z (Qfloor (double (double start / s))) * s)
                          (inject_Z (Qceiling (double (double stop / s))) * s) (Some step)
            else if Qlt_bool s 0 then
              nice_loop n (inject_Z (Qceiling (double (double start * s))) / s)
                          (inject_Z (Qfloor (double (double stop * s))) / s) (Some step)
            else None
        | _ => None
        end
  end.

(** [scale.nice()] on a two-element domain: a descending domain is
    niced end to start and written back in its own order. *)
Definition nice (d : Q * Q) : Q * Q :=
  let '(d0, d1) := d in
  if Qlt_bool d1 d0 then
    match nice_loop 10 d1 d0 None with
    | Some (start, stop) => (stop, start)
    | None => d
    end
  else
    match nice_loop 10 d0 d1 None with
    | Some (start, stop) => (start, stop)
    | None => d
    end.

(** A continuous scale: the copies it holds of its domain and range. *)
Record scale : Type := {
  scale_domain : Q * Q;
  scale_range : Q * Q
}.

(** [scaleLinear().domain(domain).range(range)] *)
Definition scaleLinear (domain range : Q * Q) : scale :=
  {| scale_domain := domain; scale_range := range |}.

Definition scale_nice (s : scale) : scale :=
  {| scale_domain := nice (scale_domain s); scale_range := scale_range s |}.

(** [s(v)] *)
Definition scale_apply (s : scale) (v : Q) : Q :=
  bimap (scale_domain s) (scale_range s) v.

Definition yScale (domain range : Q * Q) : scale :=
  scale_nice (scaleLinear domain range).


Local Close Scope Q_scope.

(** ** The script after the data: axes and dots

    The top-level constants of the script are bound once; the objects
    they are bound to live in a store that the later statements run in.
    [range.x] and [range.y] are arrays, and [Array.prototype.reverse]
    works on the array it is called on and returns that same array. *)

Record Store : Type := {
  st_races : InternMap (list Row);
  st_drivers : InternMap (list Row);
  st_constructors : InternMap (list Row);
  st_results : InternMap (InternMap (list Row));
  st_data : list Observation;
  st_domain : Domain;
  st_range_x : Q * Q;
  st_range_y : Q * Q
}.

(** References to the two arrays of [range]. *)
Inductive array_ref : Type := range_x | range_y.

Definition deref (st : Store) (r : array_ref) : Q * Q :=
  match r with
  | range_x => st_range_x st
  | range_y => st_range_y st
  end.

Definition assign (st : Store) (r : array_ref) (v : Q * Q) : Store :=
  match r with
  | range_x =>
      {| st_races := st_races st; st_drivers := st_drivers st;
         st_constructors := st_constructors st; st_results := st_results st;
         st_data := st_data st; st_domain := st_domain st;
         st_range_x := v; st_range_y := st_range_y st |}
  | range_y =>
      {| st_races := st_races st; st_drivers := st_drivers st;
         st_constructors := st_constructors st; st_results := st_results st;
         st_data := st_data st; st_domain := st_domain st;
         st_range_x := st_range_x st; st_range_y := v |}
  end.

Definition State (A : Type) : Type := Store -> A * Store.

#[global] Instance State_ret : MRet State := fun A a st => (a, st).

#[global] Instance State_bind : MBind State := fun A B k c st =>
  let '(a, st') := c st in k a st'.

(** [r.reverse()] on a two-element array: the elements change places in
    the array itself, and the call evaluates to the array. *)
Definition Array_reverse (r : array_ref) : State array_ref := fun st =>
  let '(a, b) := deref st r in (r, assign st r (b, a)).

(** The elements of an array at the time of the read, as copied by
    [scale.range(r)]. *)
Definition Array_from (r : array_ref) : State (Q * Q) := fun st => (deref st r, st).

Definition get_domain : State Domain := fun st => (st_domain st, st).
Definition get_data : State (list Observation) := fun st => (st_data st, st).

(** [yScale(domain, range)(v)] on the numbers of the script.  [None]
    stands for a result of arithmetic on an operand that is not finite,
    which the exact arithmetic of [scale_apply] does not cover. *)
Definition yScale_value (domain : number * number) (range : Q * Q) (v : number)
    : option Q :=
  match domain, v with
  | (Fin a, Fin b), Fin q => Some (scale_apply (yScale (a, b) range) q)
  | _, _ => None
  end.

Definition init_store (t : Tables) (data : list Observation) (domain : Domain) : Store := {|
  st_races := races t;
  st_drivers := drivers t;
  st_constructors := constructors t;
  st_results := results t;
  st_data := data;
  st_domain := domain;
  st_range_x := (inject_Z 0, inject_Z innerWidth);
  st_range_y := (inject_Z 0, inject_Z innerHeight)
|}.

Section Chart.

(** [xScale(domain, range)], that is
    [scaleTime().domain(domain).range(range).nice()]: a function of the
    elements of the two arrays, which it copies.  Its nice step rounds
    to calendar units of the local time zone. *)
Variable xScale : Date * Date -> Q * Q -> Date -> number.

(** [axisBottom(xScale(domain.x, range.x))]: the scale of the axis. *)
Definition xAxis : State (Date -> number) :=
  d ← get_domain;
  r ← Array_from range_x;
  mret (xScale (domain_x d) r).

(** [axisLeft(yScale(domain.y, range.y.reverse()))] *)
Definition yAxis : State (number -> option Q) :=
  d ← get_domain;
  a ← Array_reverse range_y;
  r ← Array_from a;
  mret (yScale_value (domain_y d) r).

Definition axes : State ((Date -> number) * (number -> option Q)) :=
  xa ← xAxis;
  ya ← yAxis;
  mret (xa, ya).

(** The [cx] and [cy] of the dots:
    [xScale(domain.x, range.x)(d.x)] and [yScale(domain.y, range.y)(d.y)]. *)
Definition dots : State (list (number * option Q)) :=
  ds ← get_data;
  d ← get_domain;
  rx ← Array_from range_x;
  ry ← Array_from range_y;
  mret (map (fun o => (xScale (domain_x d) rx (x o),
                       yScale_value (domain_y d) ry (y o))) ds).

Definition chart : State (list (number * option Q)) :=
  _ ← axes;
  dots.

Variable host_date_parse : string -> number.

(** The script from the tables to the coordinates of the dots. *)
Definition page (t : Tables) (pitstops : list Row)
    : completion (list (number * option Q) * Store) :=
  ds ← data host_date_parse t pitstops;
  dm ← domain ds;
  Normal (chart (init_store t ds dm)).

End Chart.

(** ** Example tables *)

Definition row (fields : list (string * string)) : Row := list_to_map fields.

(** The example chain: one race, one driver, one result, one constructor. *)
Definition example_tables : Tables := {|
  races_csv := [row [("raceId", "1"); ("name", "GP"); ("date", "2020-01-01")]];
  drivers_csv := [row [("driverId", "10"); ("forename", "A"); ("surname", "B")]];
  constructors_csv := [row [("constructorId", "99"); ("name", "Team")]];
  results_csv := [row [("raceId", "1"); ("driverId", "10"); ("constructorId", "99")]]
|}.

Definition example_pitstop : Row :=
  row [("raceId", "1"); ("driverId", "10"); ("milliseconds", "21345"); ("lap", "5")].

(** A pit stop of a race and a driver that no table knows. *)
Definition orphan_pitstop : Row :=
  row [("raceId", "2"); ("driverId", "11"); ("milliseconds", "21345"); ("lap", "5")].

Definition empty_tables : Tables := {|
  races_csv := []; drivers_csv := []; constructors_csv := []; results_csv := []
|}.

(** Tables whose races have no [date] column. *)
Definition undated_tables : Tables := {|
  races_csv := [row [("raceId", "1"); ("name", "GP")]];
  drivers_csv := drivers_csv example_tables;
  constructors_csv := constructors_csv example_tables;
  results_csv := results_csv example_tables
|}.

(** Tables whose race has an empty [date] cell. *)
Definition blank_date_tables : Tables := {|
  races_csv := [row [("raceId", "1"); ("name", "GP"); ("date", "")]];
  drivers_csv := drivers_csv example_tables;
  constructors_csv := constructors_csv example_tables;
  results_csv := results_csv example_tables
|}.

(** A host whose [Date.parse] recognises nothing beyond the date-only
    forms. *)
Definition strict_host : string -> number := fun _ => NaN.

Definition undated_observation : Observation := {|
  y := Fin 21345;
  x := NaN;
  race := Some "GP";
  driver := "A B";
  constructor := Some "Team";
  lap := Some "5"
|}.

(** Pit stops at the threshold of the filter: of an unknown race and
    driver, and of the race and driver of the example chain. *)
Definition orphan_119999 : Row :=
  row [("raceId", "2"); ("driverId", "11"); ("milliseconds", "119999"); ("lap", "5")].
Definition known_119999 : Row :=
  row [("raceId", "1"); ("driverId", "10"); ("milliseconds", "119999"); ("lap", "5")].
Definition known_120000 : Row :=
  row [("raceId", "1"); ("driverId", "10"); ("milliseconds", "120000"); ("lap", "5")].

(** A pit stop whose duration is not a number. *)
Definition garbled_pitstop : Row :=
  row [("raceId", "1"); ("driverId", "10"); ("milliseconds", "abc"); ("lap", "5")].

(** An x scale that maps nothing; the axes and the dots use it the same
    way as any other. *)
Definition blank_xScale : Date * Date -> Q * Q -> Date -> number :=
  fun _ _ _ => NaN.

(** The store of the example chain as the axes find it. *)
Definition example_store : Store :=
  init_store example_tables
    [ {| y := Fin 21345; x := Fin 1577836800000; race := Some "GP";
         driver := "A B"; constructor := Some "Team"; lap := Some "5" |} ]
    {| domain_x := (Fin 1577836800000, Fin 1577836800000);
       domain_y := (Fin 21345, Fin 21345) |}.

(** The key functions of the script: [d => String(d.name)]. *)
Definition key (name : string) (d : Row) : string := String_ (field d name).

(** [values[k]] is comparable, nothing in [values] is below it, and
    everything before it is above it or not comparable: the first of the
    least values. *)
Definition first_least {A} (valueof : A -> number) (values : list A) (k : nat) : Prop :=
  exists v, values !! k = Some v
    /\ is_NaN (valueof v) = false
    /\ (forall w, w ∈ values -> num_lt (valueof w) (valueof v) = false)
    /\ (forall j w, (j < k)%nat -> values !! j = Some w ->
          is_NaN (valueof w) = true \/ num_lt (valueof v) (valueof w) = true).

(** The first of the greatest values. *)
Definition first_greatest {A} (valueof : A -> number) (values : list A) (k : nat) : Prop :=
  exists v, values !! k = Some v
    /\ is_NaN (valueof v) = false
    /\ (forall w, w ∈ values -> num_lt (valueof v) (valueof w) = false)
    /\ (forall j w, (j < k)%nat -> values !! j = Some w ->
          is_NaN (valueof w) = true \/ num_lt (valueof w) (valueof v) = true).

(** The distance between ticks that a step of [tickIncrement] stands
    for: a negative step is the negated inverse of a distance below 1. *)
Definition tick_size (step : Q) : Q :=
  if Qlt_bool 0 step then step else (- / step)%Q.

(** [v] is a whole number of ticks. *)
Definition whole_ticks (v size : Q) : Prop :=
  exists i : Z, (v == inject_Z i * size)%Q.

(** * Properties *)

(** ** Numbers *)

Lemma Qlt_bool_iff (a b : Q) : Qlt_bool a b = true <-> (a < b)%Q.
Proof.
  unfold Qlt_bool. rewrite negb_true_iff.
  split.
  - intros H. apply Qnot_le_lt. intros Hle.
    apply Qle_bool_iff in Hle. congruence.
  - intros H. destruct (Qle_bool b a) eqn:E; [|reflexivity].
    apply Qle_bool_iff in E. exfalso. exact (Qlt_not_le _ _ H E).
Qed.

Lemma Qlt_bool_irrefl (a : Q) : Qlt_bool a a = false.
Proof.
  destruct (Qlt_bool a a) eqn:E; [|reflexivity].
  apply Qlt_bool_iff in E. exfalso. exact (Qlt_irrefl _ E).
Qed.

Lemma num_lt_NaN_l (b : number) : num_lt NaN b = false.
Proof. reflexivity. Qed.

Lemma num_lt_not_NaN (a b : number) : num_lt a b = true -> a <> NaN.
Proof. intros H ->. discriminate. Qed.

Lemma num_ge_refl (a : number) : is_NaN a = false -> num_ge a a = true.
Proof.
  destruct a as [|[]|q]; simpl; try discriminate; try reflexivity.
  intros _. now rewrite Qlt_bool_irrefl.
Qed.

Lemma num_ge_not_lt (a b : number) : num_ge a b = true -> num_lt a b = false.
Proof.
  destruct a as [|[]|p], b as [|[]|q]; simpl; try discriminate; try reflexivity;
    intros H; apply negb_true_iff in H; exact H.
Qed.

Lemma of_Z_120000 : of_Z 120000 = Fin 120000.
Proof. reflexivity. Qed.

Lemma of_Z_119999 : of_Z 119999 = Fin 119999.
Proof. reflexivity. Qed.

(** ** Coercions and scales on small inputs *)

Example Number_integer : Number (Some "21345") = Fin 21345.
Proof. reflexivity. Qed.

Example Number_decimal : Number (Some " 1.5e3 ") = Fin 1500.
Proof. reflexivity. Qed.

Example Number_empty : Number (Some "") = Fin 0.
Proof. reflexivity. Qed.

Example Number_null_marker : Number (Some "\N") = NaN.
Proof. reflexivity. Qed.

Example Number_undefined : Number None = NaN.
Proof. reflexivity. Qed.

Example Date_parse_epoch : Date_parse strict_host "1970-01-01" = Fin 0.
Proof. reflexivity. Qed.

Example Date_parse_leap_day : Date_parse strict_host "2020-02-29" = Fin 1582934400000.
Proof. reflexivity. Qed.

Example floor_log10_values :
  (floor_log10 10, floor_log10 (99 # 10), floor_log10 (1 # 10), floor_log10 (1 # 3))
  = (1, 0, -1, -1).
Proof. reflexivity. Qed.

Example nice_of_durations : nice (17342%Q, 119873%Q) = (10000%Q, 120000%Q).
Proof. reflexivity. Qed.

Example nice_descending : nice (119873%Q, 17342%Q) = (120000%Q, 10000%Q).
Proof. reflexivity. Qed.

Example nice_degenerate : nice (5%Q, 5%Q) = (5%Q, 5%Q).
Proof. reflexivity. Qed.

Example minIndex_skips_NaN : minIndex (fun v => v) [NaN; Fin 3; Fin 2; NaN] = 2.
Proof. reflexivity. Qed.

Example maxIndex_first_of_ties : maxIndex (fun v => v) [Fin 3; Fin 3] = 0.
Proof. reflexivity. Qed.

(** ** Indices *)

Lemma group_snoc (keyof : Row -> string) (values : list Row) (v : Row) :
  group keyof (values ++ [v]) = group_step keyof (group keyof values) v.
Proof. unfold group. now rewrite fold_left_app. Qed.

(** A built index holds, under each key, exactly the rows of that key
    in input order, and holds nothing under a key without rows. *)
Lemma group_lookup (keyof : Row -> string) (values : list Row) (k : string) :
  group keyof values !! k =
    match keyed keyof k values with
    | [] => None
    | g => Some g
    end.
Proof.
  induction values as [|v values IH] using rev_ind.
  - reflexivity.
  - rewrite group_snoc. unfold group_step, keyed in *.
    rewrite filter_app.
    destruct (decide (keyof v = k)) as [<-|Hne].
    + rewrite filter_cons_True by reflexivity. rewrite filter_nil.
      rewrite IH.
      destruct (filter (fun r => keyof r = keyof v) values) as [|r g] eqn:E.
      * now rewrite lookup_insert_eq.
      * rewrite lookup_insert_eq. reflexivity.
    + rewrite filter_cons_False by exact Hne. rewrite filter_nil, app_nil_r.
      destruct (group keyof values !! keyof v);
        (rewrite lookup_insert_ne by exact Hne); exact IH.
Qed.

Lemma keyed_nil_iff (keyof : Row -> string) (k : string) (values : list Row) :
  keyed keyof k values = [] <-> k ∉ keyof <$> values.
Proof.
  unfold keyed. induction values as [|v values IH]; simpl.
  - split; [intros _; apply not_elem_of_nil | reflexivity].
  - rewrite not_elem_of_cons.
    destruct (decide (keyof v = k)) as [E|E].
    + rewrite filter_cons_True by exact E.
      split; [discriminate | intros [H _]; congruence].
    + rewrite filter_cons_False by exact E.
      rewrite IH. split; [intros H; split; [congruence | exact H] | intros [_ H]; exact H].
Qed.

Lemma group_lookup_None (keyof : Row -> string) (values : list Row) (k : string) :
  group keyof values !! k = None <-> k ∉ keyof <$> values.
Proof.
  rewrite group_lookup, <- keyed_nil_iff.
  destruct (keyed keyof k values); split; congruence.
Qed.

Lemma group_lookup_nonempty (keyof : Row -> string) (values : list Row) (k : string) :
  group keyof values !! k <> Some [].
Proof.
  rewrite group_lookup. destruct (keyed keyof k values); congruence.
Qed.

(** ** Completions *)

Lemma Array_map_Normal {A B} (f : A -> completion B) (values : list A) (bs : list B) :
  Array_map f values = Normal bs -> Forall2 (fun a b => f a = Normal b) values bs.
Proof.
  revert bs. induction values as [|v values IH]; simpl; intros bs H.
  - injection H as <-. constructor.
  - unfold mbind, completion_bind in H.
    destruct (f v) as [b|] eqn:Ev; [|discriminate].
    destruct (Array_map f values) as [bs'|] eqn:Em; [|discriminate].
    injection H as <-. constructor; [exact Ev | now apply IH].
Qed.

Lemma observation_y (host : string -> number) (t : Tables) (d : Row) (o : Observation) :
  observation host t d = Normal o -> y o = Number (field d "milliseconds").
Proof.
  unfold observation, mbind, completion_bind. intros H.
  destruct (getRace t _); [|discriminate].
  destruct (getDriver t _) as [dr|]; [|discriminate].
  destruct (getContructor t _ _); [|discriminate].
  destruct (prop dr "surname"); [|discriminate].
  injection H as <-. reflexivity.
Qed.

(** ** Related rows *)

Lemma getRace_unknown (t : Tables) (raceId : string) :
  races t !! raceId = None -> getRace t raceId = Throw TypeError.
Proof. unfold getRace. simpl. now intros ->. Qed.

Lemma getDriver_unknown (t : Tables) (driverId : string) :
  drivers t !! driverId = None -> getDriver t driverId = Throw TypeError.
Proof. unfold getDriver. simpl. now intros ->. Qed.

Lemma getContructor_unknown_race (t : Tables) (raceId driverId : string) :
  results t !! raceId = None -> getContructor t raceId driverId = Throw TypeError.
Proof. unfold getContructor. simpl. now intros ->. Qed.

Lemma observation_unknown_race (host : string -> number) (t : Tables) (d : Row) :
  races t !! String_ (field d "raceId") = None ->
  observation host t d = Throw TypeError.
Proof.
  intros H. unfold observation. now rewrite (getRace_unknown _ _ H).
Qed.

(** C1 (failing input).  A pit stop whose race and driver are in no
    lookup table does not become an observation with absent labels:
    each of the three lookups throws a TypeError, and so does the
    construction of the observation sequence, over empty tables as over
    the tables of the example chain. *)
Theorem unresolved_fact_throws :
  getRace example_tables "2" = Throw TypeError
  /\ getDriver example_tables "11" = Throw TypeError
  /\ getContructor example_tables "2" "11" = Throw TypeError
  /\ getContructor example_tables "1" "11" = Throw TypeError
  /\ data strict_host example_tables [orphan_pitstop] = Throw TypeError
  /\ data strict_host empty_tables [orphan_pitstop] = Throw TypeError.
Proof. vm_compute. repeat split. Qed.

(** C2 (counterexample).  The race index of the example chain has no
    key ["2"]; looking it up gives [undefined], not the empty sequence. *)
Lemma absent_key_not_empty_sequence :
  InternMap_get (races example_tables) (Some "2") = None
  /\ InternMap_get (races example_tables) (Some "2") <> Some [].
Proof. split; [vm_compute; reflexivity | vm_compute; discriminate]. Qed.

(** C2 (amended).  A lookup in a built index never fails and never
    gives the empty sequence: for a key that no row has, it gives
    [undefined], at the first level of a one-level or a two-level index
    and at the second level of a two-level one. *)
Theorem absent_key_reads_undefined
    (keyof keyof2 : Row -> string) (values : list Row) (k k2 : string) :
  (k ∉ keyof <$> values ->
     InternMap_get (group keyof values) (Some k) = None
     /\ InternMap_get (group2 keyof keyof2 values) (Some k) = None)
  /\ (forall inner,
        InternMap_get (group2 keyof keyof2 values) (Some k) = Some inner ->
        k2 ∉ keyof2 <$> keyed keyof k values ->
        InternMap_get inner (Some k2) = None)
  /\ InternMap_get (group keyof values) (Some k) <> Some [].
Proof.
  unfold group2. simpl. repeat split.
  - now apply group_lookup_None.
  - rewrite lookup_fmap. apply group_lookup_None in H. now rewrite H.
  - intros inner Hin Hk2. rewrite lookup_fmap, group_lookup in Hin.
    destruct (keyed keyof k values) as [|r g] eqn:E; [discriminate|].
    injection Hin as <-. now apply group_lookup_None.
  - apply group_lookup_nonempty.
Qed.

Lemma absent_key_reads_undefined_witness :
  InternMap_get (races example_tables) (Some "2") = None
  /\ InternMap_get (results example_tables) (Some "2") = None.
Proof.
  refine (proj1 (absent_key_reads_undefined
            (fun d => String_ (field d "raceId"))
            (fun d => String_ (field d "driverId"))
            (results_csv example_tables) "2" "") _).
  apply (bool_decide_unpack _). vm_compute. exact I.
Defined.

(** The filter predicate alone: a value of 120000 or more fails it, a
    value of 119999 or less passes it, whatever the other fields. *)
Lemma filter_threshold (pitstops : list Row) (d : Row) :
  (num_ge (Number (field d "milliseconds")) (of_Z 120000) = true ->
     d ∉ filter (fun d => retained d = true) pitstops)
  /\ (num_le (Number (field d "milliseconds")) (of_Z 119999) = true ->
      d ∈ pitstops -> d ∈ filter (fun d => retained d = true) pitstops)
  /\ (field d "milliseconds" = Some "120000" ->
      d ∉ filter (fun d => retained d = true) pitstops)
  /\ (field d "milliseconds" = Some "119999" ->
      d ∈ pitstops -> d ∈ filter (fun d => retained d = true) pitstops)
  /\ (forall host t obs,
        data host t pitstops = Normal obs ->
        Forall2 (fun d o => observation host t d = Normal o)
                (filter (fun d => retained d = true) pitstops) obs).
Proof.
  repeat split.
  - intros Hge Hin. apply list_elem_of_filter in Hin as [Hr _].
    unfold retained in Hr. apply num_ge_not_lt in Hge. congruence.
  - intros Hle Hin. apply list_elem_of_filter. split; [|exact Hin].
    unfold retained, num_le in *. rewrite of_Z_120000. rewrite of_Z_119999 in Hle.
    destruct (Number (field d "milliseconds")) as [|[]|q]; try discriminate; try reflexivity.
    simpl in *. apply negb_true_iff in Hle.
    apply Qlt_bool_iff.
    assert (Hq : (q <= 119999)%Q).
    { apply Qnot_lt_le. intros H. apply Qlt_bool_iff in H. congruence. }
    eapply Qle_lt_trans; [exact Hq | reflexivity].
  - intros Hms Hin. apply list_elem_of_filter in Hin as [Hr _].
    unfold retained in Hr. rewrite Hms in Hr. vm_compute in Hr. discriminate.
  - intros Hms Hin. apply list_elem_of_filter. split; [|exact Hin].
    unfold retained. rewrite Hms. reflexivity.
  - intros host t obs H. now apply Array_map_Normal.
Qed.

Lemma filter_threshold_witness :
  example_pitstop ∈ filter (fun d => retained d = true) [example_pitstop].
Proof.
  refine (proj1 (proj2 (filter_threshold [example_pitstop] example_pitstop)) _ _).
  - vm_compute. reflexivity.
  - apply list_elem_of_here.
Defined.

(** C3 (failing input).  Over the tables of the example chain, a pit
    stop of 119999 milliseconds whose race and driver are known is
    included in the observation sequence, and one of 120000 is excluded.
    A pit stop of 119999 milliseconds whose race and driver are unknown
    passes the filter too, but it is in no observation sequence: the
    construction throws a TypeError on it, alone or after a pit stop
    that resolves. *)
Theorem retained_fact_of_unknown_race_not_observed :
  retained orphan_119999 = true
  /\ data strict_host example_tables [orphan_119999] = Throw TypeError
  /\ data strict_host example_tables [example_pitstop; orphan_119999] = Throw TypeError
  /\ data strict_host example_tables [known_119999] =
       Normal [ {| y := Fin 119999;
                   x := Fin 1577836800000;
                   race := Some "GP";
                   driver := "A B";
                   constructor := Some "Team";
                   lap := Some "5" |} ]
  /\ retained known_120000 = false
  /\ data strict_host example_tables [known_120000] = Normal [].
Proof. vm_compute. repeat split. Qed.

(** C4.  Over the tables of the example chain, the pit stop of race 1
    and driver 10 with 21345 milliseconds at lap 5 resolves to the
    observation of the race GP, the driver A B and the constructor Team,
    dated 2020-01-01 (midnight UTC, 1577836800000 ms after the epoch). *)
Theorem example_chain_resolves (host : string -> number) :
  data host example_tables [example_pitstop] =
    Normal [ {| y := Fin 21345;
                x := new_Date host (Some "2020-01-01");
                race := Some "GP";
                driver := "A B";
                constructor := Some "Team";
                lap := Some "5" |} ]
  /\ new_Date host (Some "2020-01-01") = Fin 1577836800000.
Proof. split; vm_compute; reflexivity. Qed.

(** C5 (counterexample).  The pit stop of the example chain, over a race
    whose date cell is empty or whose table has no date column, gives a
    one-element observation sequence whose date is invalid; the domain
    computation throws on it, and its minimum and maximum along x are
    [undefined], not that element. *)
Lemma singleton_invalid_date_fails :
  data strict_host blank_date_tables [example_pitstop] = Normal [undated_observation]
  /\ data strict_host undated_tables [example_pitstop] = Normal [undated_observation]
  /\ domain [undated_observation] = Throw TypeError
  /\ minX (extrema [undated_observation]) <> Some undated_observation
  /\ maxX (extrema [undated_observation]) <> Some undated_observation.
Proof.
  repeat split; try (vm_compute; reflexivity); vm_compute; discriminate.
Qed.

(** C5 (amended).  The domain computation throws a TypeError on the
    empty observation sequence; on a one-element sequence whose x is a
    valid date and whose y is not NaN, that element is the minimum and
    the maximum along both axes, and the domain is made of its x and its
    y twice. *)
Theorem extent_empty_and_singleton (o : Observation) :
  domain [] = Throw TypeError
  /\ (is_NaN (x o) = false -> is_NaN (y o) = false ->
      extrema [o] = {| minX := Some o; maxX := Some o; minY := Some o; maxY := Some o |}
      /\ domain [o] = Normal {| domain_x := (x o, x o); domain_y := (y o, y o) |}).
Proof.
  split; [reflexivity|].
  intros Hx Hy.
  assert (E : extrema [o] =
            {| minX := Some o; maxX := Some o; minY := Some o; maxY := Some o |}).
  { unfold extrema, minIndex, maxIndex. simpl.
    rewrite (num_ge_refl _ Hx), (num_ge_refl _ Hy). reflexivity. }
  split; [exact E|].
  unfold domain. rewrite E. reflexivity.
Qed.

Lemma extent_empty_and_singleton_witness :
  domain [ {| y := Fin 21345; x := Fin 1577836800000; race := Some "GP";
              driver := "A B"; constructor := Some "Team"; lap := Some "5" |} ] =
    Normal {| domain_x := (Fin 1577836800000, Fin 1577836800000);
              domain_y := (Fin 21345, Fin 21345) |}.
Proof.
  refine (proj2 (proj2 (extent_empty_and_singleton
    {| y := Fin 21345; x := Fin 1577836800000; race := Some "GP";
       driver := "A B"; constructor := Some "Team"; lap := Some "5" |}) _ _));
    reflexivity.
Defined.

(** ** Rounding to the nearest double *)

Local Open Scope Q_scope.

Lemma Qlt_bool_false (a b : Q) : Qlt_bool a b = false <-> b <= a.
Proof.
  unfold Qlt_bool. rewrite negb_false_iff. apply Qle_bool_iff.
Qed.

Lemma pow2_pos (k : Z) : 0 < pow2 k.
Proof. apply Qpower_0_lt. reflexivity. Qed.

Lemma pow2_le (j k : Z) : (j <= k)%Z -> pow2 j <= pow2 k.
Proof. intros H. apply Qpower_le_compat_l; [exact H | discriminate]. Qed.

Lemma pow2_lt (j k : Z) : (j < k)%Z -> pow2 j < pow2 k.
Proof. intros H. apply Qpower_lt_compat_l; [exact H | reflexivity]. Qed.

Lemma pow2_minus (j k : Z) : pow2 (j - k) == pow2 j / pow2 k.
Proof. apply Qpower_minus. discriminate. Qed.

Lemma pow2_inject (k : Z) : (0 <= k)%Z -> inject_Z (2 ^ k) == pow2 k.
Proof. intros H. now apply Zpower_Qpower. Qed.

(** [round_half_even] is monotone and fixes the integers. *)
Lemma rhe_cases (v : Q) :
  round_half_even v = Qfloor v \/ round_half_even v = (Qfloor v + 1)%Z.
Proof.
  unfold round_half_even.
  destruct (Qcompare (v - inject_Z (Qfloor v)) (1 # 2)); [destruct (Z.even _)| |]; auto.
Qed.

Lemma Qfloor_mono (v w : Q) : v <= w -> (Qfloor v <= Qfloor w)%Z.
Proof. apply Qfloor_resp_le. Qed.

Lemma rhe_mono (v w : Q) : v <= w -> (round_half_even v <= round_half_even w)%Z.
Proof.
  intros H. pose proof (Qfloor_mono _ _ H) as Hf.
  destruct (Z.eq_dec (Qfloor v) (Qfloor w)) as [E|E].
  - unfold round_half_even. rewrite <- E.
    destruct (Qcompare_spec (v - inject_Z (Qfloor v)) (1 # 2)) as [Cv|Cv|Cv];
    destruct (Qcompare_spec (w - inject_Z (Qfloor v)) (1 # 2)) as [Cw|Cw|Cw];
      try destruct (Z.even (Qfloor v)); try lia; lra.
  - destruct (rhe_cases v) as [-> | ->], (rhe_cases w) as [-> | ->]; lia.
Qed.

Lemma rhe_inject (z : Z) : round_half_even (inject_Z z) = z.
Proof.
  unfold round_half_even. rewrite Qfloor_Z.
  destruct (Qcompare_spec (inject_Z z - inject_Z z) (1 # 2)) as [C|C|C];
    [lra | reflexivity | lra].
Qed.

Lemma rhe_nonneg (v : Q) : 0 <= v -> (0 <= round_half_even v)%Z.
Proof. intros H. rewrite <- (rhe_inject 0). now apply rhe_mono. Qed.

(** [floor_log2 q] is the exponent of the power of two at or below [q]. *)
Lemma Zlog2_bounds (n : Z) :
  (0 < n)%Z -> pow2 (Z.log2 n) <= inject_Z n /\ inject_Z n < pow2 (Z.log2 n + 1).
Proof.
  intros H. destruct (Z.log2_spec n H) as [H1 H2].
  pose proof (Z.log2_nonneg n) as Hn.
  rewrite <- !pow2_inject by lia. rewrite <- Zle_Qle, <- Zlt_Qlt.
  replace (Z.log2 n + 1)%Z with (Z.succ (Z.log2 n)) by lia. now split.
Qed.

Lemma floor_log2_spec (q : Q) :
  0 < q -> pow2 (floor_log2 q) <= q /\ q < pow2 (floor_log2 q + 1).
Proof.
  intros Hq. unfold floor_log2.
  destruct q as [n d]. cbn [Qnum Qden].
  assert (Hn : (0 < n)%Z).
  { unfold Qlt in Hq. cbn in Hq. lia. }
  destruct (Zlog2_bounds n Hn) as [Hn1 Hn2].
  destruct (Zlog2_bounds (Z.pos d) eq_refl) as [Hd1 Hd2].
  set (ln := Z.log2 n) in *. set (ld := Z.log2 (Z.pos d)) in *.
  assert (Eq : n # d == inject_Z n / inject_Z (Z.pos d)) by apply Qmake_Qdiv.
  assert (Hdpos : 0 < inject_Z (Z.pos d)) by (rewrite <- (Zlt_Qlt 0); lia).
  assert (Hlow : pow2 (ln - ld - 1) < n # d).
  { rewrite Eq. replace (ln - ld - 1)%Z with (ln - (ld + 1))%Z by lia.
    rewrite pow2_minus.
    pose proof (pow2_pos ln). pose proof (pow2_pos (ld + 1)).
    apply Qlt_shift_div_l; [exact Hdpos|].
    assert (E2 : pow2 ln / pow2 (ld + 1) * inject_Z (Z.pos d)
                 == pow2 ln * (inject_Z (Z.pos d) / pow2 (ld + 1))) by (field; lra).
    rewrite E2.
    assert (Hfrac : inject_Z (Z.pos d) / pow2 (ld + 1) < 1).
    { apply Qlt_shift_div_r; [assumption | lra]. }
    generalize dependent (inject_Z (Z.pos d) / pow2 (ld + 1)). intros. nra. }
  assert (Hhigh : n # d < pow2 (ln - ld + 1)).
  { rewrite Eq. replace (ln - ld + 1)%Z with (ln + 1 - ld)%Z by lia.
    rewrite pow2_minus.
    pose proof (pow2_pos (ln + 1)). pose proof (pow2_pos ld).
    apply Qlt_shift_div_r; [exact Hdpos|].
    assert (E2 : pow2 (ln + 1) / pow2 ld * inject_Z (Z.pos d)
                 == pow2 (ln + 1) * (inject_Z (Z.pos d) / pow2 ld)) by (field; lra).
    rewrite E2.
    assert (Hfrac : 1 <= inject_Z (Z.pos d) / pow2 ld).
    { apply Qle_shift_div_l; [assumption | lra]. }
    generalize dependent (inject_Z (Z.pos d) / pow2 ld). intros. nra. }
  destruct (Qle_bool (pow2 (ln - ld)) (n # d)) eqn:E.
  - apply Qle_bool_iff in E. split; [exact E | exact Hhigh].
  - split; [apply Qlt_le_weak; exact Hlow|].
    replace (ln - ld - 1 + 1)%Z with (ln - ld)%Z by lia.
    apply Qnot_le_lt. intros H. apply Qle_bool_iff in H. congruence.
Qed.

Lemma floor_log2_mono (p q : Q) : 0 < p -> p <= q -> (floor_log2 p <= floor_log2 q)%Z.
Proof.
  intros Hp Hpq.
  destruct (floor_log2_spec p Hp) as [Hp1 _].
  destruct (floor_log2_spec q) as [_ Hq2]; [lra|].
  destruct (Z_le_gt_dec (floor_log2 p) (floor_log2 q)) as [H|H]; [exact H|].
  assert (Hc : pow2 (floor_log2 q + 1) <= pow2 (floor_log2 p)) by (apply pow2_le; lia).
  lra.
Qed.

Lemma double_pos_upper (q : Q) : 0 < q -> double_pos q <= pow2 (exponent q + 1).
Proof.
  intros Hq. unfold double_pos. set (e := exponent q).
  destruct (floor_log2_spec q Hq) as [_ Hup].
  assert (Hup' : q < pow2 (e + 1)).
  { eapply Qlt_le_trans; [exact Hup|]. apply pow2_le. unfold e, exponent. lia. }
  pose proof (pow2_pos (e - 52)) as Hu.
  assert (Hm : (round_half_even (q / pow2 (e - 52)) <= 2 ^ 53)%Z).
  { rewrite <- (rhe_inject (2 ^ 53)). apply rhe_mono.
    rewrite pow2_inject by lia.
    apply Qle_shift_div_r; [exact Hu|].
    assert (E : pow2 53 * pow2 (e - 52) == pow2 (e + 1)).
    { unfold pow2. rewrite <- Qpower_plus by discriminate.
      replace (53 + (e - 52))%Z with (e + 1)%Z by lia. reflexivity. }
    rewrite E. lra. }
  rewrite Zle_Qle in Hm. rewrite pow2_inject in Hm by lia.
  assert (E : pow2 (e + 1) == pow2 53 * pow2 (e - 52)).
  { unfold pow2. rewrite <- Qpower_plus by discriminate.
    replace (53 + (e - 52))%Z with (e + 1)%Z by lia. reflexivity. }
  rewrite E. apply Qmult_le_compat_r; [exact Hm | lra].
Qed.

Lemma double_pos_lower (q : Q) :
  0 < q -> exponent q = floor_log2 q -> pow2 (exponent q) <= double_pos q.
Proof.
  intros Hq He. unfold double_pos. set (e := exponent q) in *.
  destruct (floor_log2_spec q Hq) as [Hlo _]. rewrite <- He in Hlo.
  pose proof (pow2_pos (e - 52)) as Hu.
  assert (Hm : (2 ^ 52 <= round_half_even (q / pow2 (e - 52)))%Z).
  { rewrite <- (rhe_inject (2 ^ 52)) at 1. apply rhe_mono.
    rewrite pow2_inject by lia.
    apply Qle_shift_div_l; [exact Hu|].
    assert (E : pow2 52 * pow2 (e - 52) == pow2 e).
    { unfold pow2. rewrite <- Qpower_plus by discriminate.
      replace (52 + (e - 52))%Z with e by lia. reflexivity. }
    rewrite E. exact Hlo. }
  rewrite Zle_Qle in Hm. rewrite pow2_inject in Hm by lia.
  assert (E : pow2 e == pow2 52 * pow2 (e - 52)).
  { unfold pow2. rewrite <- Qpower_plus by discriminate.
    replace (52 + (e - 52))%Z with e by lia. reflexivity. }
  rewrite E. apply Qmult_le_compat_r; [exact Hm | lra].
Qed.

Lemma double_pos_nonneg (q : Q) : 0 < q -> 0 <= double_pos q.
Proof.
  intros Hq. unfold double_pos.
  pose proof (pow2_pos (exponent q - 52)) as Hu.
  apply Qmult_le_0_compat; [|lra].
  rewrite <- (Zle_Qle 0). apply rhe_nonneg.
  apply Qle_shift_div_l; [exact Hu | lra].
Qed.

Lemma double_pos_mono (p q : Q) : 0 < p -> p <= q -> double_pos p <= double_pos q.
Proof.
  intros Hp Hpq. assert (Hq : 0 < q) by lra.
  pose proof (floor_log2_mono p q Hp Hpq) as Hfl.
  destruct (Z.eq_dec (exponent p) (exponent q)) as [E|E].
  - unfold double_pos. rewrite E.
    pose proof (pow2_pos (exponent q - 52)) as Hu.
    apply Qmult_le_compat_r; [|lra].
    rewrite <- Zle_Qle. apply rhe_mono.
    apply Qle_shift_div_l; [exact Hu|].
    assert (E2 : p / pow2 (exponent q - 52) * pow2 (exponent q - 52) == p) by (field; lra).
    rewrite E2. exact Hpq.
  - assert (Hlt : (exponent p < exponent q)%Z) by (unfold exponent in *; lia).
    assert (Heq : exponent q = floor_log2 q) by (unfold exponent in *; lia).
    eapply Qle_trans; [apply double_pos_upper; exact Hp|].
    eapply Qle_trans; [|apply double_pos_lower; assumption].
    apply pow2_le. lia.
Qed.

Lemma double_eq (p q : Q) : p == q -> double p = double q.
Proof. intros H. unfold double. now rewrite (Qred_complete _ _ H). Qed.

Lemma double_zero (q : Q) : q == 0 -> double q = 0.
Proof. intros H. rewrite (double_eq _ _ H). reflexivity. Qed.

Lemma double_unfold (q : Q) :
  double q == if Qlt_bool 0 (Qred q) then double_pos (Qred q)
              else if Qlt_bool (Qred q) 0 then - double_pos (- Qred q)
              else 0.
Proof. unfold double. apply Qred_correct. Qed.

Lemma double_le (p q : Q) : p <= q -> double p <= double q.
Proof.
  intros H. rewrite (double_unfold p), (double_unfold q).
  assert (Hp : Qred p == p) by apply Qred_correct.
  assert (Hq : Qred q == q) by apply Qred_correct.
  destruct (Qlt_bool 0 (Qred p)) eqn:Ep.
  - apply Qlt_bool_iff in Ep.
    assert (Eq : Qlt_bool 0 (Qred q) = true) by (apply Qlt_bool_iff; lra).
    rewrite Eq. apply double_pos_mono; lra.
  - apply Qlt_bool_false in Ep.
    destruct (Qlt_bool (Qred p) 0) eqn:En.
    + apply Qlt_bool_iff in En.
      assert (Hdp : 0 <= double_pos (- Qred p)) by (apply double_pos_nonneg; lra).
      destruct (Qlt_bool 0 (Qred q)) eqn:Eq.
      * apply Qlt_bool_iff in Eq. pose proof (double_pos_nonneg _ Eq). lra.
      * apply Qlt_bool_false in Eq.
        destruct (Qlt_bool (Qred q) 0) eqn:Eqn; [|lra].
        apply Qlt_bool_iff in Eqn.
        assert (Hm : double_pos (- Qred q) <= double_pos (- Qred p))
          by (apply double_pos_mono; lra).
        lra.
    + apply Qlt_bool_false in En.
      destruct (Qlt_bool 0 (Qred q)) eqn:Eq.
      * apply Qlt_bool_iff in Eq. pose proof (double_pos_nonneg _ Eq). lra.
      * apply Qlt_bool_false in Eq.
        destruct (Qlt_bool (Qred q) 0) eqn:Eqn; [|lra].
        apply Qlt_bool_iff in Eqn. lra.
Qed.

Lemma double_pos_inv (q : Q) : 0 < double q -> 0 < q.
Proof.
  intros H. apply Qnot_le_lt. intros Hq.
  pose proof (double_le _ _ Hq) as Hd. rewrite (double_zero 0) in Hd by reflexivity. lra.
Qed.


Example double_tenth : double (1 # 10) = 3602879701896397 # 36028797018963968.
Proof. vm_compute. reflexivity. Qed.

Example double_integer : double 120000 = 120000.
Proof. vm_compute. reflexivity. Qed.

Example double_tie_to_even :
  double (inject_Z (2 ^ 53 + 1)) = inject_Z (2 ^ 53)
  /\ double (inject_Z (2 ^ 53 + 3)) = inject_Z (2 ^ 53 + 4).
Proof. split; vm_compute; reflexivity. Qed.

(** The three constants are the doubles nearest to the square roots:
    the square of each, half a unit in the last place lower and higher,
    is on either side of 50, 10 and 2. *)
Example sqrt_constants :
  (double e10 = e10 /\ (e10 - pow2 (-51)) ^ 2 < 50 < (e10 + pow2 (-51)) ^ 2)
  /\ (double e5 = e5 /\ (e5 - pow2 (-52)) ^ 2 < 10 < (e5 + pow2 (-52)) ^ 2)
  /\ (double e2 = e2 /\ (e2 - pow2 (-53)) ^ 2 < 2 < (e2 + pow2 (-53)) ^ 2).
Proof. repeat split; vm_compute; reflexivity. Qed.

Example Number_rounds_to_double :
  Number (Some "0.1") = Fin (3602879701896397 # 36028797018963968)
  /\ Number (Some "119999.99999999999999999") = Fin 120000.
Proof. split; vm_compute; reflexivity. Qed.

(** ** The order of the bounds through [nice] *)

(** A step is a finite number only when [start] is below [stop]. *)
Lemma tickIncrement_Fin_lt (start stop : Q) (count : positive) (s : Q) :
  tickIncrement start stop count = Fin s -> start < stop.
Proof.
  unfold tickIncrement.
  set (step := double (double (double stop - double start) / inject_Z (Z.pos count))).
  destruct (Qlt_bool 0 step) eqn:E.
  2:{ destruct (Qeq_bool step 0); discriminate. }
  intros _. apply Qlt_bool_iff in E. subst step.
  apply double_pos_inv in E.
  assert (Hc : 0 < inject_Z (Z.pos count)) by reflexivity.
  assert (Hd : 0 < double (double stop - double start)).
  { apply Qnot_le_lt. intros Hle.
    assert (Hq : double (double stop - double start) / inject_Z (Z.pos count) <= 0).
    { apply Qle_shift_div_r; [exact Hc | lra]. }
    lra. }
  apply double_pos_inv in Hd.
  apply Qnot_le_lt. intros Hle. apply double_le in Hle. lra.
Qed.

Lemma tickIncrement_degenerate (a b : Q) : a == b -> tickIncrement a b 10 = Inf true.
Proof.
  intros E. unfold tickIncrement.
  rewrite (double_eq a b E).
  rewrite (double_zero (double b - double b)) by ring.
  rewrite (double_zero (0 / inject_Z 10)) by reflexivity.
  reflexivity.
Qed.

(** The bounds that the loop of [nice] assigns are in strict order. *)
Lemma nice_loop_Some_lt (n : nat) :
  forall (start stop : Q) (pre : option number) (a b : Q),
    nice_loop n start stop pre = Some (a, b) ->
    (forall p, pre = Some p -> exists s, p = Fin s) ->
    a < b.
Proof.
  induction n as [|n IH]; intros start stop pre a b H Hpre; [discriminate|].
  cbn [nice_loop] in H.
  destruct (match pre with
            | Some p => num_eq (tickIncrement start stop 10) p
            | None => false
            end) eqn:Eeq.
  - injection H as <- <-.
    destruct pre as [p|]; [|discriminate].
    destruct (Hpre p eq_refl) as [s ->].
    destruct (tickIncrement start stop 10) as [| |s'] eqn:Et; try discriminate.
    exact (tickIncrement_Fin_lt _ _ _ _ Et).
  - destruct (tickIncrement start stop 10) as [| |s] eqn:Et; try discriminate.
    destruct (Qlt_bool 0 s).
    + apply (IH _ _ _ _ _ H). intros p [= <-]. now exists s.
    + destruct (Qlt_bool s 0); [|discriminate].
      apply (IH _ _ _ _ _ H). intros p [= <-]. now exists s.
Qed.

Lemma nice_order (a b : Q) :
  (a < b -> fst (nice (a, b)) < snd (nice (a, b)))
  /\ (b < a -> snd (nice (a, b)) < fst (nice (a, b)))
  /\ (a == b -> nice (a, b) = (a, b)).
Proof.
  unfold nice. repeat split.
  - intros Hab. destruct (Qlt_bool b a) eqn:E.
    { apply Qlt_bool_iff in E. lra. }
    destruct (nice_loop 10 a b None) as [[a' b']|] eqn:En; [|exact Hab].
    cbn [fst snd]. apply (nice_loop_Some_lt _ _ _ _ _ _ En). intros p. discriminate.
  - intros Hba. apply Qlt_bool_iff in Hba. rewrite Hba. apply Qlt_bool_iff in Hba.
    destruct (nice_loop 10 b a None) as [[a' b']|] eqn:En; [|exact Hba].
    cbn [fst snd]. apply (nice_loop_Some_lt _ _ _ _ _ _ En). intros p. discriminate.
  - intros E. destruct (Qlt_bool b a) eqn:E1.
    { apply Qlt_bool_iff in E1. lra. }
    cbn [nice_loop]. now rewrite (tickIncrement_degenerate _ _ E).
Qed.


Local Close Scope Q_scope.

(** ** Scales *)

Local Open Scope Q_scope.

(** C7.  The linear scale of domain [0, 100] and range [0, 800] maps 50
    to 400 by affine interpolation.  Its nice step is 10, the niced
    domain is [0, 100] again, both bounds are multiples of 10, and the
    niced scale maps 0 to 0 and 100 to 800, inside [0, 800]. *)
Theorem linear_scale_0_100_0_800 :
  (scale_apply (scaleLinear (0, 100) (0, 800)) 50 == 400)%Q
  /\ tickIncrement 0 100 10 = Fin 10
  /\ scale_domain (yScale (0, 100) (0, 800)) = (0%Q, 100%Q)
  /\ (fst (scale_domain (yScale (0, 100) (0, 800))) == inject_Z 0 * 10)%Q
  /\ (snd (scale_domain (yScale (0, 100) (0, 800))) == inject_Z 10 * 10)%Q
  /\ (scale_apply (yScale (0, 100) (0, 800)) 0 == 0)%Q
  /\ (scale_apply (yScale (0, 100) (0, 800)) 100 == 800)%Q
  /\ (0 <= scale_apply (yScale (0, 100) (0, 800)) 0 <= 800)%Q
  /\ (0 <= scale_apply (yScale (0, 100) (0, 800)) 100 <= 800)%Q
  /\ (scale_apply (yScale (0, 100) (0, 800)) 50 == 400)%Q.
Proof.
  repeat split; try (vm_compute; reflexivity); vm_compute; discriminate.
Qed.









Local Close Scope Q_scope.

(** ** The store *)

(** C9 (counterexample).  In the store of the example chain the range
    along y is [0, 460] as constructed; once the axes are built it is
    [460, 0], and that is the interval the dots read. *)
Lemma range_y_changed_before_dots :
  deref example_store range_y = (inject_Z 0, inject_Z 460)
  /\ deref (snd (axes blank_xScale example_store)) range_y = (inject_Z 460, inject_Z 0)
  /\ deref (snd (axes blank_xScale example_store)) range_y <> deref example_store range_y
  /\ snd (chart blank_xScale example_store) <> example_store.
Proof.
  repeat split; discriminate.
Qed.

(** C9 (amended).  Building the axes leaves the indices, the
    observation sequence, the domain and the range along x as they
    were, and reverses the range along y in place; computing the dots
    changes nothing, and the dots read the range along x as constructed
    and the range along y reversed. *)
Theorem axes_reverse_range_y_only
    (xScale : Date * Date -> Q * Q -> Date -> number) (st : Store) :
  st_range_y (snd (axes xScale st)) = (snd (st_range_y st), fst (st_range_y st))
  /\ st_range_x (snd (axes xScale st)) = st_range_x st
  /\ st_domain (snd (axes xScale st)) = st_domain st
  /\ st_data (snd (axes xScale st)) = st_data st
  /\ st_races (snd (axes xScale st)) = st_races st
  /\ st_drivers (snd (axes xScale st)) = st_drivers st
  /\ st_constructors (snd (axes xScale st)) = st_constructors st
  /\ st_results (snd (axes xScale st)) = st_results st
  /\ snd (dots xScale (snd (axes xScale st))) = snd (axes xScale st)
  /\ chart xScale st =
       (map (fun o => (xScale (domain_x (st_domain st)) (st_range_x st) (x o),
                       yScale_value (domain_y (st_domain st))
                         (snd (st_range_y st), fst (st_range_y st)) (y o)))
            (st_data st), snd (axes xScale st)).
Proof.
  destruct st as [r d c rs ds dm rx [y0 y1]].
  repeat split.
Qed.

(** ** Unparseable durations *)

Lemma retained_y_not_NaN (host : string -> number) (t : Tables)
    (kept : list Row) (obs : list Observation) :
  Forall2 (fun d o => observation host t d = Normal o) kept obs ->
  Forall (fun d => retained d = true) kept ->
  Forall (fun o => y o <> NaN) obs.
Proof.
  induction 1 as [|d o kept obs Hd _ IH]; intros Hk; constructor.
  - rewrite (observation_y _ _ _ _ Hd).
    apply Forall_inv in Hk. unfold retained in Hk.
    exact (num_lt_not_NaN _ _ Hk).
  - apply IH. exact (Forall_inv_tail Hk).
Qed.

(** C10.  A pit stop whose milliseconds coerce to NaN fails the filter
    predicate and is in no filtered sequence; every observation that is
    built has a y that is not NaN, so none reaches the domain
    computation. *)
Theorem unparseable_milliseconds_excluded (d : Row) :
  Number (field d "milliseconds") = NaN ->
  retained d = false
  /\ (forall pitstops : list Row, d ∉ filter (fun d => retained d = true) pitstops)
  /\ (forall host t pitstops obs,
        data host t pitstops = Normal obs -> Forall (fun o => y o <> NaN) obs).
Proof.
  intros HNaN.
  assert (Hr : retained d = false) by (unfold retained; now rewrite HNaN).
  repeat split.
  - exact Hr.
  - intros pitstops Hin. apply list_elem_of_filter in Hin as [Hk _]. congruence.
  - intros host t pitstops obs H. apply Array_map_Normal in H.
    eapply retained_y_not_NaN; [exact H|].
    apply Forall_forall. intros d' Hd'.
    now apply list_elem_of_filter in Hd' as [Hk _].
Qed.

Lemma unparseable_milliseconds_excluded_witness :
  retained garbled_pitstop = false.
Proof.
  refine (proj1 (unparseable_milliseconds_excluded garbled_pitstop _)).
  vm_compute. reflexivity.
Defined.

(** * Further properties of the script *)

(** ** Grouping *)

Lemma keyed_elem_of (keyof : Row -> string) (k : string) (values : list Row) (r : Row) :
  r ∈ keyed keyof k values <-> r ∈ values /\ keyof r = k.
Proof. unfold keyed. rewrite list_elem_of_filter. tauto. Qed.

Lemma group2_chain (keyof1 keyof2 : Row -> string) (values : list Row) (k1 k2 : string) :
  InternMap_get (group2 keyof1 keyof2 values) (Some k1)
    ≫= (fun inner => InternMap_get inner (Some k2)) =
  match keyed keyof2 k2 (keyed keyof1 k1 values) with
  | [] => None
  | g => Some g
  end.
Proof.
  unfold group2. simpl. rewrite lookup_fmap, group_lookup.
  destruct (keyed keyof1 k1 values) as [|r g] eqn:E; [reflexivity|].
  simpl. apply group_lookup.
Qed.

Lemma first_group (keyof : Row -> string) (values : list Row) (k : string) :
  first (InternMap_get (group keyof values) (Some k)) =
  match keyed keyof k values with
  | [] => Throw TypeError
  | r :: _ => Normal (Some r)
  end.
Proof.
  simpl. rewrite group_lookup.
  now destruct (keyed keyof k values).
Qed.

(** X1.  A built index is complete and sound: every row of the table is
    found in the group of its own key, and the group stored under a key
    is exactly the rows of that key, in the order of the table, and is
    never empty. *)
Theorem group_complete_and_sound (keyof : Row -> string) (values : list Row) :
  (forall r, r ∈ values ->
     exists g, InternMap_get (group keyof values) (Some (keyof r)) = Some g /\ r ∈ g)
  /\ (forall k g, InternMap_get (group keyof values) (Some k) = Some g ->
        g = keyed keyof k values /\ g <> []
        /\ (forall r, r ∈ g <-> r ∈ values /\ keyof r = k)).
Proof.
  split.
  - intros r Hr. simpl. rewrite group_lookup.
    assert (Hin : r ∈ keyed keyof (keyof r) values) by now apply keyed_elem_of.
    destruct (keyed keyof (keyof r) values) as [|r0 g] eqn:E.
    + now apply elem_of_nil in Hin.
    + eexists. split; [reflexivity | exact Hin].
  - intros k g. simpl. rewrite group_lookup.
    destruct (keyed keyof k values) as [|r0 g0] eqn:E; [discriminate|].
    intros [= <-]. split; [reflexivity|]. split; [discriminate|].
    intros r. rewrite <- E. apply keyed_elem_of.
Qed.

Lemma group_complete_and_sound_witness :
  exists g, InternMap_get (races example_tables) (Some "1") = Some g
            /\ row [("raceId", "1"); ("name", "GP"); ("date", "2020-01-01")] ∈ g.
Proof.
  refine (proj1 (group_complete_and_sound (fun d => String_ (field d "raceId"))
                   (races_csv example_tables))
            (row [("raceId", "1"); ("name", "GP"); ("date", "2020-01-01")]) _).
  apply list_elem_of_here.
Defined.

(** X2.  The two-level index answers a chain of two lookups with the
    rows that have both keys, in the order of the table; the chain is
    [undefined] exactly when no row has both. *)
Theorem group2_lookup_by_both_keys
    (keyof1 keyof2 : Row -> string) (values : list Row) (k1 k2 : string) :
  (InternMap_get (group2 keyof1 keyof2 values) (Some k1)
     ≫= (fun inner => InternMap_get inner (Some k2)) =
   match keyed keyof2 k2 (keyed keyof1 k1 values) with
   | [] => None
   | g => Some g
   end)
  /\ (forall r, r ∈ keyed keyof2 k2 (keyed keyof1 k1 values) <->
                r ∈ values /\ keyof1 r = k1 /\ keyof2 r = k2)
  /\ (InternMap_get (group2 keyof1 keyof2 values) (Some k1) = None <->
      k1 ∉ keyof1 <$> values).
Proof.
  repeat split.
  - apply group2_chain.
  - now apply keyed_elem_of in H as [H _]; apply keyed_elem_of in H.
  - now apply keyed_elem_of in H as [H _]; apply keyed_elem_of in H.
  - now apply keyed_elem_of in H.
  - intros (Hr & H1 & H2). apply keyed_elem_of. split; [|exact H2].
    now apply keyed_elem_of.
  - unfold group2. simpl. rewrite lookup_fmap. intros H.
    apply group_lookup_None.
    destruct (group keyof1 values !! k1); [discriminate | reflexivity].
  - unfold group2. simpl. rewrite lookup_fmap. intros H.
    apply group_lookup_None in H. now rewrite H.
Qed.

Lemma group2_lookup_by_both_keys_witness :
  InternMap_get (results example_tables) (Some "1")
    ≫= (fun inner => InternMap_get inner (Some "10")) =
  Some (results_csv example_tables).
Proof.
  etransitivity.
  - exact (proj1 (group2_lookup_by_both_keys
                    (fun d => String_ (field d "raceId"))
                    (fun d => String_ (field d "driverId"))
                    (results_csv example_tables) "1" "10")).
  - vm_compute. reflexivity.
Defined.

(** ** Related rows *)

Lemma getRace_first (t : Tables) (raceId : string) :
  getRace t raceId =
  match keyed (key "raceId") raceId (races_csv t) with
  | [] => Throw TypeError
  | r :: _ => Normal (Some r)
  end.
Proof. apply first_group. Qed.

Lemma getDriver_first (t : Tables) (driverId : string) :
  getDriver t driverId =
  match keyed (key "driverId") driverId (drivers_csv t) with
  | [] => Throw TypeError
  | r :: _ => Normal (Some r)
  end.
Proof. apply first_group. Qed.

Lemma getContructor_first (t : Tables) (raceId driverId : string) :
  getContructor t raceId driverId =
  match keyed (key "driverId") driverId (keyed (key "raceId") raceId (results_csv t)) with
  | [] => Throw TypeError
  | res :: _ =>
      match field res "constructorId" with
      | None => Throw TypeError
      | Some c =>
          match keyed (key "constructorId") c (constructors_csv t) with
          | [] => Throw TypeError
          | k :: _ => Normal (Some k)
          end
      end
  end.
Proof.
  unfold getContructor, results, group2. simpl.
  rewrite lookup_fmap.
  rewrite (group_lookup _ (results_csv t) raceId).
  fold (key "raceId").
  destruct (keyed (key "raceId") raceId (results_csv t)) as [|r0 g] eqn:E.
  - reflexivity.
  - simpl. rewrite group_lookup. fold (key "driverId").
    destruct (keyed (key "driverId") driverId (r0 :: g)) as [|res g'] eqn:E'.
    + reflexivity.
    + simpl. destruct (field res "constructorId") as [c|]; [|reflexivity].
      fold (InternMap_get (constructors t) (Some c)).
      apply (first_group _ (constructors_csv t) c).
Qed.

(** X3.  [getRace] and [getDriver] return the first row of the table, in
    its order, whose id is the one asked for, and throw a TypeError when
    there is none; they never return [undefined]. *)
Theorem getRace_getDriver_first_match (t : Tables) (id : string) :
  getRace t id =
    match keyed (key "raceId") id (races_csv t) with
    | [] => Throw TypeError
    | r :: _ => Normal (Some r)
    end
  /\ getDriver t id =
    match keyed (key "driverId") id (drivers_csv t) with
    | [] => Throw TypeError
    | r :: _ => Normal (Some r)
    end
  /\ getRace t id <> Normal None
  /\ getDriver t id <> Normal None.
Proof.
  rewrite getRace_first, getDriver_first.
  repeat split.
  - now destruct (keyed (key "raceId") id (races_csv t)).
  - now destruct (keyed (key "driverId") id (drivers_csv t)).
Qed.

(** X4.  [getContructor] takes the first result row of the race and the
    driver, reads its constructor id and returns the first constructor
    row of that id.  It throws a TypeError when the race has no result
    row, when the driver has none in that race, when the result row has
    no constructor id, and when no constructor has that id; it never
    returns [undefined]. *)
Theorem getContructor_three_hops (t : Tables) (raceId driverId : string) :
  getContructor t raceId driverId =
    match keyed (key "driverId") driverId (keyed (key "raceId") raceId (results_csv t)) with
    | [] => Throw TypeError
    | res :: _ =>
        match field res "constructorId" with
        | None => Throw TypeError
        | Some c =>
            match keyed (key "constructorId") c (constructors_csv t) with
            | [] => Throw TypeError
            | k :: _ => Normal (Some k)
            end
        end
    end
  /\ getContructor t raceId driverId <> Normal None.
Proof.
  rewrite getContructor_first. split; [reflexivity|].
  destruct (keyed (key "driverId") driverId _) as [|res ?]; [discriminate|].
  destruct (field res "constructorId") as [c|]; [|discriminate].
  now destruct (keyed (key "constructorId") c (constructors_csv t)).
Qed.

Lemma getRace_defined (t : Tables) (id : string) : getRace t id <> Normal None.
Proof. rewrite getRace_first. now destruct (keyed _ id (races_csv t)). Qed.

Lemma getDriver_defined (t : Tables) (id : string) : getDriver t id <> Normal None.
Proof. rewrite getDriver_first. now destruct (keyed _ id (drivers_csv t)). Qed.

Lemma getContructor_defined (t : Tables) (raceId driverId : string) :
  getContructor t raceId driverId <> Normal None.
Proof.
  rewrite getContructor_first.
  destruct (keyed (key "driverId") driverId _) as [|res ?]; [discriminate|].
  destruct (field res "constructorId") as [c|]; [|discriminate].
  now destruct (keyed (key "constructorId") c (constructors_csv t)).
Qed.

(** ** Observations *)

(** The observation of a pit stop [d] whose race, driver and constructor
    rows are [r], [dr] and [c]. *)
Lemma observation_of_rows (host : string -> number) (t : Tables) (d r dr c : Row) :
  getRace t (key "raceId" d) = Normal (Some r) ->
  getDriver t (key "driverId" d) = Normal (Some dr) ->
  getContructor t (key "raceId" d) (key "driverId" d) = Normal (Some c) ->
  observation host t d =
    Normal {| y := Number (field d "milliseconds");
              x := new_Date host (field r "date");
              race := field r "name";
              driver := String_ (field dr "forename") ++ " " ++ String_ (field dr "surname");
              constructor := field c "name";
              lap := field d "lap" |}.
Proof.
  unfold key, observation. intros -> -> ->. reflexivity.
Qed.

Lemma observation_rows (host : string -> number) (t : Tables) (d : Row) (o : Observation) :
  observation host t d = Normal o ->
  exists r dr c,
    getRace t (key "raceId" d) = Normal (Some r)
    /\ getDriver t (key "driverId" d) = Normal (Some dr)
    /\ getContructor t (key "raceId" d) (key "driverId" d) = Normal (Some c).
Proof.
  unfold key, observation. intros H.
  destruct (getRace t _) as [[r|]|] eqn:Er;
    [|now apply getRace_defined in Er|discriminate].
  destruct (getDriver t _) as [[dr|]|] eqn:Ed;
    [|now apply getDriver_defined in Ed|discriminate].
  destruct (getContructor t _ _) as [[c|]|] eqn:Ec;
    [|now apply getContructor_defined in Ec|discriminate].
  now exists r, dr, c.
Qed.

(** X5.  A pit stop becomes an observation exactly when its race, its
    driver and the constructor of its result all resolve to rows; the
    observation then carries the coerced milliseconds, the race date and
    name, the driver's forename and surname joined by a space, the
    constructor name and the lap.  Otherwise the callback throws. *)
Theorem observation_iff_resolved (host : string -> number) (t : Tables) (d : Row)
    (o : Observation) :
  (observation host t d = Normal o <->
   exists r dr c,
     getRace t (key "raceId" d) = Normal (Some r)
     /\ getDriver t (key "driverId" d) = Normal (Some dr)
     /\ getContructor t (key "raceId" d) (key "driverId" d) = Normal (Some c)
     /\ o = {| y := Number (field d "milliseconds");
               x := new_Date host (field r "date");
               race := field r "name";
               driver := String_ (field dr "forename") ++ " " ++ String_ (field dr "surname");
               constructor := field c "name";
               lap := field d "lap" |})
  /\ (observation host t d = Throw TypeError <->
      getRace t (key "raceId" d) = Throw TypeError
      \/ getDriver t (key "driverId" d) = Throw TypeError
      \/ getContructor t (key "raceId" d) (key "driverId" d) = Throw TypeError).
Proof.
  split; split.
  - intros H. destruct (observation_rows _ _ _ _ H) as (r & dr & c & Hr & Hd & Hc).
    exists r, dr, c. repeat split; try assumption.
    rewrite (observation_of_rows host _ _ _ _ _ Hr Hd Hc) in H.
    now injection H.
  - intros (r & dr & c & Hr & Hd & Hc & ->).
    now apply observation_of_rows.
  - intros H.
    destruct (getRace t (key "raceId" d)) as [[r|]|[]] eqn:Er; [| |now left].
    2:{ now apply getRace_defined in Er. }
    destruct (getDriver t (key "driverId" d)) as [[dr|]|[]] eqn:Ed; [| |now right; left].
    2:{ now apply getDriver_defined in Ed. }
    destruct (getContructor t (key "raceId" d) (key "driverId" d)) as [[c|]|[]] eqn:Ec;
      [| |now right; right].
    2:{ now apply getContructor_defined in Ec. }
    rewrite (observation_of_rows host _ _ _ _ _ Er Ed Ec) in H. discriminate.
  - unfold key, observation.
    intros [H|[H|H]].
    + now rewrite H.
    + rewrite H. destruct (getRace t _) as [?|[]]; reflexivity.
    + rewrite H. destruct (getRace t _) as [?|[]]; [|reflexivity].
      destruct (getDriver t _) as [?|[]]; reflexivity.
Qed.

Lemma observation_iff_resolved_witness :
  getRace example_tables (key "raceId" orphan_pitstop) = Throw TypeError
  \/ getDriver example_tables (key "driverId" orphan_pitstop) = Throw TypeError
  \/ getContructor example_tables (key "raceId" orphan_pitstop)
       (key "driverId" orphan_pitstop) = Throw TypeError.
Proof.
  refine (proj1 (proj2 (observation_iff_resolved strict_host example_tables
                          orphan_pitstop undated_observation)) _).
  vm_compute. reflexivity.
Defined.

(** ** The observation sequence *)

Lemma observation_lap (host : string -> number) (t : Tables) (d : Row) (o : Observation) :
  observation host t d = Normal o -> lap o = field d "lap".
Proof.
  unfold observation, mbind, completion_bind. intros H.
  destruct (getRace t _); [|discriminate].
  destruct (getDriver t _) as [dr|]; [|discriminate].
  destruct (getContructor t _ _); [|discriminate].
  destruct (prop dr "surname"); [|discriminate].
  injection H as <-. reflexivity.
Qed.

Lemma Array_map_Throw {A B} (f : A -> completion B) (values : list A) :
  Array_map f values = Throw TypeError <->
  exists a, a ∈ values /\ f a = Throw TypeError.
Proof.
  induction values as [|v values IH]; simpl.
  - split; [discriminate | intros (a & Ha & _); now apply elem_of_nil in Ha].
  - unfold mbind, completion_bind.
    destruct (f v) as [b|[]] eqn:Ev.
    + destruct (Array_map f values) as [bs|[]] eqn:Em.
      * split; [discriminate|].
        intros (a & Ha & Hf). apply elem_of_cons in Ha as [->|Ha]; [congruence|].
        assert (HT : @Normal (list B) bs = Throw TypeError) by (apply IH; now exists a).
        discriminate.
      * split; [|reflexivity]. intros _.
        destruct IH as [IH _]. destruct (IH eq_refl) as (a & Ha & Hf).
        exists a. split; [now apply elem_of_cons; right | exact Hf].
    + split; [|reflexivity]. intros _. exists v. split; [apply list_elem_of_here | exact Ev].
Qed.

Lemma Forall2_map_eq {A B C} (R : A -> B -> Prop) (f : A -> C) (g : B -> C)
    (l : list A) (k : list B) :
  (forall a b, R a b -> g b = f a) -> Forall2 R l k -> map g k = map f l.
Proof.
  intros H. induction 1 as [|a b l k Hab _ IH]; simpl; [reflexivity|].
  now rewrite (H _ _ Hab), IH.
Qed.

(** X6.  When the observation sequence is built, it has one observation
    per retained pit stop, in the order of the pit-stop table: the y
    values and the laps are those of the retained pit stops in order,
    and every y is below 120000. *)
Theorem data_follows_retained (host : string -> number) (t : Tables)
    (pitstops : list Row) (obs : list Observation) :
  data host t pitstops = Normal obs ->
  length obs = length (filter (fun d => retained d = true) pitstops)
  /\ map y obs = map (fun d => Number (field d "milliseconds"))
                     (filter (fun d => retained d = true) pitstops)
  /\ map lap obs = map (fun d => field d "lap")
                       (filter (fun d => retained d = true) pitstops)
  /\ Forall (fun o => num_lt (y o) (of_Z 120000) = true) obs.
Proof.
  intros H. apply Array_map_Normal in H.
  repeat split.
  - symmetry. exact (Forall2_length _ _ _ H).
  - eapply Forall2_map_eq; [|exact H]. intros a b. apply observation_y.
  - eapply Forall2_map_eq; [|exact H]. intros a b. apply observation_lap.
  - assert (Hk : Forall (fun d => retained d = true)
                        (filter (fun d => retained d = true) pitstops)).
    { apply Forall_forall. intros d Hd. now apply list_elem_of_filter in Hd as [Hk _]. }
    revert Hk. induction H as [|d o kept obs' Hd _ IH]; intros Hk; constructor.
    + rewrite (observation_y _ _ _ _ Hd). exact (Forall_inv Hk).
    + apply IH. exact (Forall_inv_tail Hk).
Qed.

Lemma data_follows_retained_witness :
  length [undated_observation] =
  length (filter (fun d => retained d = true) [example_pitstop; garbled_pitstop]).
Proof.
  refine (proj1 (data_follows_retained strict_host undated_tables
                   [example_pitstop; garbled_pitstop] [undated_observation] _)).
  vm_compute. reflexivity.
Defined.

(** X7.  The construction of the observation sequence throws exactly
    when some retained pit stop does not resolve, wherever it stands in
    the table; a pit stop dropped by the filter is never resolved and
    cannot make it throw. *)
Theorem data_throws_iff_retained_unresolved (host : string -> number) (t : Tables)
    (pitstops : list Row) :
  data host t pitstops = Throw TypeError <->
  exists d, d ∈ pitstops /\ retained d = true /\ observation host t d = Throw TypeError.
Proof.
  unfold data. rewrite Array_map_Throw. split.
  - intros (d & Hd & Ho). apply list_elem_of_filter in Hd as [Hk Hd]. now exists d.
  - intros (d & Hd & Hk & Ho). exists d. split; [|exact Ho].
    now apply list_elem_of_filter.
Qed.

Lemma data_throws_iff_retained_unresolved_witness :
  data strict_host example_tables [example_pitstop; orphan_pitstop] = Throw TypeError.
Proof.
  refine (proj2 (data_throws_iff_retained_unresolved strict_host example_tables
                   [example_pitstop; orphan_pitstop]) _).
  exists orphan_pitstop. split; [|split].
  - apply list_elem_of_further, list_elem_of_here.
  - vm_compute. reflexivity.
  - vm_compute. reflexivity.
Defined.

(** ** The order of numbers *)

Lemma num_lt_irrefl (a : number) : num_lt a a = false.
Proof. destruct a as [|[]|q]; simpl; try reflexivity. apply Qlt_bool_irrefl. Qed.

Lemma num_lt_trans (a b c : number) :
  num_lt a b = true -> num_lt b c = true -> num_lt a c = true.
Proof.
  destruct a as [|[]|p], b as [|[]|q], c as [|[]|r]; simpl;
    try discriminate; try reflexivity.
  rewrite !Qlt_bool_iff. apply Qlt_trans.
Qed.

Lemma num_lt_asym (a b : number) : num_lt a b = true -> num_lt b a = false.
Proof.
  intros H. destruct (num_lt b a) eqn:E; [|reflexivity].
  pose proof (num_lt_trans _ _ _ H E) as Haa.
  rewrite num_lt_irrefl in Haa. discriminate.
Qed.

(** [u < m] and not [v < m], [v] comparable: [u < v]. *)
Lemma num_lt_below (u m v : number) :
  num_lt u m = true -> num_lt v m = false -> is_NaN v = false -> num_lt u v = true.
Proof.
  destruct u as [|[]|p], m as [|[]|q], v as [|[]|r]; simpl;
    try discriminate; try reflexivity.
  intros Hpq Hrq _. apply Qlt_bool_iff in Hpq. apply Qlt_bool_iff.
  assert (Hqr : (q <= r)%Q).
  { apply Qnot_lt_le. intros H. apply Qlt_bool_iff in H. congruence. }
  eapply Qlt_le_trans; eassumption.
Qed.

Lemma num_lt_not_below (u m v : number) :
  num_lt u m = true -> num_lt v m = false -> num_lt v u = false.
Proof.
  intros Hum Hvm. destruct (num_lt v u) eqn:E; [|reflexivity].
  rewrite (num_lt_trans _ _ _ E Hum) in Hvm. discriminate.
Qed.

Lemma num_lt_comparable (a b : number) :
  num_lt a b = true -> is_NaN a = false /\ is_NaN b = false.
Proof. destruct a as [|[]|p], b as [|[]|q]; simpl; try discriminate; now split. Qed.

Lemma num_ge_self (a : number) : num_ge a a = negb (is_NaN a).
Proof.
  destruct a as [|[]|q]; simpl; try reflexivity.
  now rewrite Qlt_bool_irrefl.
Qed.

Lemma Qlt_bool_opp (a b : Q) : Qlt_bool (- a) (- b) = Qlt_bool b a.
Proof.
  destruct (Qlt_bool b a) eqn:E.
  - apply Qlt_bool_iff. apply Qlt_bool_iff in E. now apply Qopp_lt_compat.
  - destruct (Qlt_bool (- a) (- b)) eqn:E'; [|reflexivity].
    apply Qlt_bool_iff in E'. apply Qopp_lt_compat in E'.
    rewrite !Qopp_involutive in E'. apply Qlt_bool_iff in E'. congruence.
Qed.

Lemma num_lt_neg (a b : number) : num_lt (num_neg a) (num_neg b) = num_lt b a.
Proof.
  destruct a as [|[]|p], b as [|[]|q]; simpl; try reflexivity.
  apply Qlt_bool_opp.
Qed.

Lemma is_NaN_neg (a : number) : is_NaN (num_neg a) = is_NaN a.
Proof. now destruct a. Qed.

(** ** [minIndex] and [maxIndex] *)

Section ExtentFacts.

Context {A : Type}.

(** The loop of [minIndex] from any state whose minimum is comparable:
    either no element of [values] improves on the state and the index is
    kept, or the result is the position of the first least element,
    which is below the minimum of the state. *)
Lemma minIndex_loop_spec (valueof : A -> number) (values : list A) :
  forall (index : Z) (min : option number) (mi : Z),
    match min with Some m => is_NaN m = false | None => True end ->
    (minIndex_loop valueof values index min mi = mi
     /\ forall w, w ∈ values ->
          match min with
          | Some m => num_lt (valueof w) m = false
          | None => is_NaN (valueof w) = true
          end)
    \/ (exists k v,
          minIndex_loop valueof values index min mi = index + 1 + Z.of_nat k
          /\ values !! k = Some v
          /\ first_least valueof values k
          /\ match min with
             | Some m => num_lt (valueof v) m = true
             | None => True
             end).
Proof.
  induction values as [|v rest IH]; intros index min mi Hmin.
  - left. split; [reflexivity|]. intros w Hw. now apply elem_of_nil in Hw.
  - cbn [minIndex_loop].
    set (val := valueof v).
    destruct min as [m|].
    + destruct (num_lt val m) eqn:Elt.
      * destruct (num_lt_comparable _ _ Elt) as [Hval _].
        destruct (IH (index + 1) (Some val) (index + 1) Hval)
          as [[Hr Hall]|(k & u & Hr & Hk & (u' & Hk' & Hu & Hleast & Hbefore) & Hlt)].
        -- right. exists 0%nat, v. rewrite Hr. repeat split; try (simpl; lia); try assumption.
           exists v. repeat split; try assumption; try reflexivity.
           ++ intros w Hw. apply elem_of_cons in Hw as [->|Hw];
                [apply num_lt_irrefl | now apply Hall].
           ++ intros j w Hj. lia.
        -- assert (u' = u) by congruence. subst u'.
           right. exists (S k), u. rewrite Hr.
           repeat split; try assumption.
           ++ lia.
           ++ exists u. repeat split; try assumption.
              ** intros w Hw. apply elem_of_cons in Hw as [->|Hw];
                   [now apply num_lt_asym | now apply Hleast].
              ** intros j w Hj Hjw. destruct j as [|j].
                 --- injection Hjw as <-. now right.
                 --- apply (Hbefore j w); [lia | exact Hjw].
           ++ exact (num_lt_trans _ _ _ Hlt Elt).
      * destruct (IH (index + 1) (Some m) mi Hmin)
          as [[Hr Hall]|(k & u & Hr & Hk & (u' & Hk' & Hu & Hleast & Hbefore) & Hlt)].
        -- left. split; [exact Hr|].
           intros w Hw. apply elem_of_cons in Hw as [->|Hw]; [exact Elt | now apply Hall].
        -- assert (u' = u) by congruence. subst u'.
           right. exists (S k), u. rewrite Hr.
           repeat split; try assumption.
           ++ lia.
           ++ exists u. repeat split; try assumption.
              ** intros w Hw. apply elem_of_cons in Hw as [->|Hw];
                   [exact (num_lt_not_below _ _ _ Hlt Elt) | now apply Hleast].
              ** intros j w Hj Hjw. destruct j as [|j].
                 --- injection Hjw as <-. fold val.
                     destruct (is_NaN val) eqn:En; [now left | right].
                     exact (num_lt_below _ _ _ Hlt Elt En).
                 --- apply (Hbefore j w); [lia | exact Hjw].
    + rewrite num_ge_self.
      destruct (is_NaN val) eqn:En; cbn [negb].
      * destruct (IH (index + 1) None mi I)
          as [[Hr Hall]|(k & u & Hr & Hk & (u' & Hk' & Hu & Hleast & Hbefore) & _)].
        -- left. split; [exact Hr|].
           intros w Hw. apply elem_of_cons in Hw as [->|Hw]; [exact En | now apply Hall].
        -- assert (u' = u) by congruence. subst u'.
           right. exists (S k), u. rewrite Hr.
           repeat split; try assumption.
           ++ lia.
           ++ exists u. repeat split; try assumption.
              ** intros w Hw. apply elem_of_cons in Hw as [->|Hw]; [|now apply Hleast].
                 fold val. now destruct val.
              ** intros j w Hj Hjw. destruct j as [|j].
                 --- injection Hjw as <-. now left.
                 --- apply (Hbefore j w); [lia | exact Hjw].
      * destruct (IH (index + 1) (Some val) (index + 1) En)
          as [[Hr Hall]|(k & u & Hr & Hk & (u' & Hk' & Hu & Hleast & Hbefore) & Hlt)].
        -- right. exists 0%nat, v. rewrite Hr. repeat split; try (simpl; lia); try assumption.
           exists v. repeat split; try assumption; try reflexivity.
           ++ intros w Hw. apply elem_of_cons in Hw as [->|Hw];
                [apply num_lt_irrefl | now apply Hall].
           ++ intros j w Hj. lia.
        -- assert (u' = u) by congruence. subst u'.
           right. exists (S k), u. rewrite Hr.
           repeat split; try assumption.
           ++ lia.
           ++ exists u. repeat split; try assumption.
              ** intros w Hw. apply elem_of_cons in Hw as [->|Hw];
                   [now apply num_lt_asym | now apply Hleast].
              ** intros j w Hj Hjw. destruct j as [|j].
                 --- injection Hjw as <-. now right.
                 --- apply (Hbefore j w); [lia | exact Hjw].
Qed.

End ExtentFacts.

Lemma minIndex_spec {A} (valueof : A -> number) (values : list A) :
  (minIndex valueof values = -1
   /\ forall w, w ∈ values -> is_NaN (valueof w) = true)
  \/ (exists k, minIndex valueof values = Z.of_nat k /\ first_least valueof values k).
Proof.
  unfold minIndex.
  destruct (minIndex_loop_spec valueof values (-1) None (-1) I)
    as [[Hr Hall]|(k & v & Hr & _ & Hleast & _)].
  - now left.
  - right. exists k. split; [rewrite Hr; lia | exact Hleast].
Qed.

Lemma maxIndex_loop_neg {A} (valueof : A -> number) (values : list A) :
  forall (index : Z) (max : option number) (mi : Z),
    maxIndex_loop valueof values index max mi =
    minIndex_loop (fun a => num_neg (valueof a)) values index (num_neg <$> max) mi.
Proof.
  induction values as [|v rest IH]; intros index max mi; [reflexivity|].
  cbn [maxIndex_loop minIndex_loop].
  destruct max as [m|]; cbn [fmap option_fmap option_map].
  - rewrite num_lt_neg. destruct (num_lt m (valueof v)); apply IH.
  - rewrite !num_ge_self, is_NaN_neg.
    destruct (negb (is_NaN (valueof v))); apply IH.
Qed.

Lemma first_least_neg {A} (valueof : A -> number) (values : list A) (k : nat) :
  first_least (fun a => num_neg (valueof a)) values k -> first_greatest valueof values k.
Proof.
  intros (v & Hk & Hv & Hleast & Hbefore).
  exists v. rewrite is_NaN_neg in Hv. repeat split; try assumption.
  - intros w Hw. specialize (Hleast w Hw). now rewrite num_lt_neg in Hleast.
  - intros j w Hj Hjw. specialize (Hbefore j w Hj Hjw).
    now rewrite is_NaN_neg, num_lt_neg in Hbefore.
Qed.

Lemma maxIndex_spec {A} (valueof : A -> number) (values : list A) :
  (maxIndex valueof values = -1
   /\ forall w, w ∈ values -> is_NaN (valueof w) = true)
  \/ (exists k, maxIndex valueof values = Z.of_nat k /\ first_greatest valueof values k).
Proof.
  unfold maxIndex. rewrite (maxIndex_loop_neg valueof values (-1) None (-1)).
  destruct (minIndex_spec (fun a => num_neg (valueof a)) values)
    as [[Hr Hall]|(k & Hr & Hleast)].
  - left. split; [exact Hr|]. intros w Hw. specialize (Hall w Hw).
    now rewrite is_NaN_neg in Hall.
  - right. exists k. split; [exact Hr | now apply first_least_neg].
Qed.

(** X8.  [minIndex] gives -1 exactly when no value is comparable (the
    sequence is empty or every value is NaN or an invalid date);
    otherwise it gives the position of the first of the least comparable
    values.  [maxIndex] does the same with the greatest. *)
Theorem minIndex_maxIndex_first_extreme {A} (valueof : A -> number) (values : list A) :
  ((minIndex valueof values = -1
    /\ forall w, w ∈ values -> is_NaN (valueof w) = true)
   \/ (exists k, minIndex valueof values = Z.of_nat k /\ first_least valueof values k))
  /\ ((maxIndex valueof values = -1
       /\ forall w, w ∈ values -> is_NaN (valueof w) = true)
      \/ (exists k, maxIndex valueof values = Z.of_nat k
                    /\ first_greatest valueof values k)).
Proof. split; [apply minIndex_spec | apply maxIndex_spec]. Qed.

Lemma minIndex_maxIndex_first_extreme_witness :
  (minIndex y [undated_observation] = -1
   /\ forall w, w ∈ [undated_observation] -> is_NaN (y w) = true)
  \/ (exists k, minIndex y [undated_observation] = Z.of_nat k
                 /\ first_least y [undated_observation] k).
Proof.
  exact (proj1 (minIndex_maxIndex_first_extreme y [undated_observation])).
Defined.

(** ** The domain *)

Lemma element_of_nat {A} (values : list A) (k : nat) :
  element values (Z.of_nat k) = values !! k.
Proof.
  unfold element. destruct (Z.of_nat k <? 0) eqn:E.
  - apply Z.ltb_lt in E. lia.
  - now rewrite Nat2Z.id.
Qed.

Lemma least_element {A} (valueof : A -> number) (values : list A) :
  (element values (minIndex valueof values) = None
   /\ forall w, w ∈ values -> is_NaN (valueof w) = true)
  \/ (exists v, element values (minIndex valueof values) = Some v
        /\ v ∈ values /\ is_NaN (valueof v) = false
        /\ forall w, w ∈ values -> num_lt (valueof w) (valueof v) = false).
Proof.
  destruct (minIndex_spec valueof values)
    as [[Hr Hall]|(k & Hr & v & Hk & Hv & Hleast & _)]; rewrite Hr.
  - now left.
  - right. exists v. rewrite element_of_nat. repeat split; try assumption.
    apply list_elem_of_lookup. now exists k.
Qed.

Lemma greatest_element {A} (valueof : A -> number) (values : list A) :
  (element values (maxIndex valueof values) = None
   /\ forall w, w ∈ values -> is_NaN (valueof w) = true)
  \/ (exists v, element values (maxIndex valueof values) = Some v
        /\ v ∈ values /\ is_NaN (valueof v) = false
        /\ forall w, w ∈ values -> num_lt (valueof v) (valueof w) = false).
Proof.
  destruct (maxIndex_spec valueof values)
    as [[Hr Hall]|(k & Hr & v & Hk & Hv & Hgreatest & _)]; rewrite Hr.
  - now left.
  - right. exists v. rewrite element_of_nat. repeat split; try assumption.
    apply list_elem_of_lookup. now exists k.
Qed.

Lemma not_all_NaN {A} (valueof : A -> number) (values : list A) (v : A) :
  v ∈ values -> is_NaN (valueof v) = false ->
  ~ (forall w, w ∈ values -> is_NaN (valueof w) = true).
Proof. intros Hv Hn Hall. specialize (Hall v Hv). congruence. Qed.

(** The domain, when it is computed: each bound is the value of an
    observation, and no observation is outside. *)
Lemma domain_Normal (data : list Observation) (dm : Domain) :
  domain data = Normal dm ->
  (exists o0 o1, o0 ∈ data /\ o1 ∈ data /\ domain_x dm = (x o0, x o1)
     /\ is_NaN (x o0) = false /\ is_NaN (x o1) = false
     /\ forall o, o ∈ data -> num_lt (x o) (x o0) = false /\ num_lt (x o1) (x o) = false)
  /\ (exists o0 o1, o0 ∈ data /\ o1 ∈ data /\ domain_y dm = (y o0, y o1)
     /\ is_NaN (y o0) = false /\ is_NaN (y o1) = false
     /\ forall o, o ∈ data -> num_lt (y o) (y o0) = false /\ num_lt (y o1) (y o) = false).
Proof.
  unfold domain, extrema. cbn [minX maxX minY maxY].
  destruct (least_element x data) as [[-> _]|(a & -> & Ha & Hna & Hla)]; [discriminate|].
  destruct (greatest_element x data) as [[-> _]|(b & -> & Hb & Hnb & Hgb)]; [discriminate|].
  destruct (least_element y data) as [[-> _]|(c & -> & Hc & Hnc & Hlc)]; [discriminate|].
  destruct (greatest_element y data) as [[-> _]|(d & -> & Hd & Hnd & Hgd)]; [discriminate|].
  cbn. intros [= <-]. cbn. split.
  - exists a, b. repeat split; try assumption; [now apply Hla | now apply Hgb].
  - exists c, d. repeat split; try assumption; [now apply Hlc | now apply Hgd].
Qed.

Lemma domain_Throw (data : list Observation) :
  domain data = Throw TypeError <->
  (forall o, o ∈ data -> is_NaN (x o) = true)
  \/ (forall o, o ∈ data -> is_NaN (y o) = true).
Proof.
  unfold domain, extrema. cbn [minX maxX minY maxY].
  destruct (least_element x data) as [[-> Hax]|(a & -> & Ha & Hna & _)].
  { split; [now left | reflexivity]. }
  destruct (greatest_element x data) as [[-> Hax]|(b & -> & _)].
  { now apply (not_all_NaN _ _ _ Ha Hna) in Hax. }
  destruct (least_element y data) as [[-> Hay]|(c & -> & Hc & Hnc & _)].
  { split; [now right | reflexivity]. }
  destruct (greatest_element y data) as [[-> Hay]|(d & -> & _)].
  { now apply (not_all_NaN _ _ _ Hc Hnc) in Hay. }
  cbn. split; [discriminate|].
  intros [H|H]; [now apply (not_all_NaN _ _ _ Ha Hna) in H
                | now apply (not_all_NaN _ _ _ Hc Hnc) in H].
Qed.

(** X9.  The domain computation throws exactly when no observation has
    a valid date or none has a y that is a number, the empty sequence
    included; it never throws otherwise. *)
Theorem domain_throws_iff_nothing_comparable (data : list Observation) :
  (domain data = Throw TypeError <->
   (forall o, o ∈ data -> is_NaN (x o) = true)
   \/ (forall o, o ∈ data -> is_NaN (y o) = true))
  /\ ((exists o, o ∈ data /\ is_NaN (x o) = false) ->
      (exists o, o ∈ data /\ is_NaN (y o) = false) ->
      exists dm, domain data = Normal dm).
Proof.
  split; [apply domain_Throw|].
  intros (ox & Hox & Hnx) (oy & Hoy & Hny).
  destruct (domain data) as [dm|[]] eqn:E; [now exists dm|].
  apply domain_Throw in E as [H|H].
  - now apply (not_all_NaN _ _ _ Hox Hnx) in H.
  - now apply (not_all_NaN _ _ _ Hoy Hny) in H.
Qed.

Lemma domain_throws_iff_nothing_comparable_witness :
  domain [undated_observation] = Throw TypeError.
Proof.
  refine (proj2 (proj1 (domain_throws_iff_nothing_comparable [undated_observation])) _).
  left. intros o Ho. apply list_elem_of_singleton in Ho. subst o. reflexivity.
Defined.

(** X10.  When the domain is computed, each of its four bounds is the x
    or the y of an observation of the sequence, is a valid date or a
    number, and no observation lies below the lower bound or above the
    upper bound of its axis. *)
Theorem domain_bounds_enclose (data : list Observation) (dm : Domain) :
  domain data = Normal dm ->
  (exists o0 o1, o0 ∈ data /\ o1 ∈ data /\ domain_x dm = (x o0, x o1)
     /\ is_NaN (x o0) = false /\ is_NaN (x o1) = false
     /\ forall o, o ∈ data -> num_lt (x o) (x o0) = false /\ num_lt (x o1) (x o) = false)
  /\ (exists o0 o1, o0 ∈ data /\ o1 ∈ data /\ domain_y dm = (y o0, y o1)
     /\ is_NaN (y o0) = false /\ is_NaN (y o1) = false
     /\ forall o, o ∈ data -> num_lt (y o) (y o0) = false /\ num_lt (y o1) (y o) = false).
Proof. apply domain_Normal. Qed.

Lemma domain_bounds_enclose_witness :
  exists o0 o1, o0 ∈ st_data example_store /\ o1 ∈ st_data example_store
     /\ domain_y (st_domain example_store) = (y o0, y o1)
     /\ is_NaN (y o0) = false /\ is_NaN (y o1) = false
     /\ forall o, o ∈ st_data example_store ->
          num_lt (y o) (y o0) = false /\ num_lt (y o1) (y o) = false.
Proof.
  refine (proj2 (domain_bounds_enclose (st_data example_store)
                   (st_domain example_store) _)).
  vm_compute. reflexivity.
Defined.

(** ** The linear scale *)

Local Open Scope Q_scope.




(** X11.  [nice] keeps the order of the bounds: an ascending domain
    stays ascending and a descending one descending, strictly when the
    two bounds differ, so [nice] never turns the axis round. *)
Theorem nice_keeps_bound_order (a b : Q) (range : Q * Q) :
  (a < b ->
     fst (scale_domain (yScale (a, b) range)) < snd (scale_domain (yScale (a, b) range)))
  /\ (b < a ->
     snd (scale_domain (yScale (a, b) range)) < fst (scale_domain (yScale (a, b) range)))
  /\ (a <= b ->
     fst (scale_domain (yScale (a, b) range)) <= snd (scale_domain (yScale (a, b) range))).
Proof.
  unfold yScale, scale_nice, scaleLinear. cbn [scale_domain].
  destruct (nice_order a b) as (Hlt & Hgt & Heq).
  repeat split; [exact Hlt | exact Hgt |].
  intros Hab. destruct (Qle_lt_or_eq _ _ Hab) as [H|H].
  - apply Qlt_le_weak. now apply Hlt.
  - rewrite (Heq H). exact Hab.
Qed.

Lemma nice_keeps_bound_order_witness :
  fst (scale_domain (yScale (17342, 119873) (460, 0)))
  < snd (scale_domain (yScale (17342, 119873) (460, 0))).
Proof.
  apply (nice_keeps_bound_order 17342 119873 (460, 0)). reflexivity.
Defined.

(** [nice] can narrow a domain: the upper bound 90.60000000000001 (the
    double next above 90.6) becomes 90.6, because the product
    90.60000000000001 * -50 is rounded to -4530 before its floor is
    taken. *)
Example nice_can_narrow :
  let upper := double (9060000000000001 # 100000000000000) in
  (906 # 10) < upper
  /\ snd (nice (double (9035 # 100), upper)) == 906 # 10
  /\ fst (nice (double (9035 # 100), upper)) == 9034 # 100.
Proof. vm_compute. repeat split. Qed.









Lemma tick_size_comp (s s' : Q) : s == s' -> tick_size s == tick_size s'.
Proof.
  intros E. unfold tick_size.
  destruct (Qlt_bool 0 s) eqn:E1, (Qlt_bool 0 s') eqn:E2.
  - exact E.
  - apply Qlt_bool_iff in E1. apply Qlt_bool_false in E2. lra.
  - apply Qlt_bool_iff in E2. apply Qlt_bool_false in E1. lra.
  - now rewrite E.
Qed.

Lemma whole_ticks_comp (v size size' : Q) :
  size == size' -> whole_ticks v size -> whole_ticks v size'.
Proof. intros E [i Hi]. exists i. now rewrite <- E. Qed.

(** The bounds that the loop of [nice] returns are whole numbers of the
    ticks of the step computed for them. *)
Lemma nice_loop_whole_ticks (n : nat) :
  forall (start stop : Q) (pre : option number) (a b : Q),
    nice_loop n start stop pre = Some (a, b) ->
    (forall p, pre = Some p ->
       exists s, p = Fin s /\ ~ s == 0
         /\ whole_ticks start (tick_size s) /\ whole_ticks stop (tick_size s)) ->
    exists s, tickIncrement a b 10 = Fin s /\ ~ s == 0
      /\ whole_ticks a (tick_size s) /\ whole_ticks b (tick_size s).
Proof.
  induction n as [|n IH]; intros start stop pre a b H Hpre; [discriminate|].
  cbn [nice_loop] in H.
  assert (Hstep : forall s, tickIncrement start stop 10 = Fin s ->
    (if Qlt_bool 0 s
     then nice_loop n (inject_Z (Qfloor (double (double start / s))) * s)
                      (inject_Z (Qceiling (double (double stop / s))) * s) (Some (Fin s))
     else if Qlt_bool s 0
          then nice_loop n (inject_Z (Qceiling (double (double start * s))) / s)
                           (inject_Z (Qfloor (double (double stop * s))) / s) (Some (Fin s))
          else None) = Some (a, b) ->
    exists s, tickIncrement a b 10 = Fin s /\ ~ s == 0
      /\ whole_ticks a (tick_size s) /\ whole_ticks b (tick_size s)).
  { intros s Es Hs.
    destruct (Qlt_bool 0 s) eqn:Epos.
    - apply (IH _ _ _ _ _ Hs). intros p [= <-]. exists s.
      apply Qlt_bool_iff in Epos.
      assert (Et : tick_size s = s).
      { unfold tick_size. apply Qlt_bool_iff in Epos. now rewrite Epos. }
      rewrite Et. repeat split.
      + lra.
      + now exists (Qfloor (double (double start / s))).
      + now exists (Qceiling (double (double stop / s))).
    - destruct (Qlt_bool s 0) eqn:Eneg; [|discriminate].
      apply (IH _ _ _ _ _ Hs). intros p [= <-]. exists s.
      apply Qlt_bool_iff in Eneg.
      assert (Et : tick_size s = - / s).
      { unfold tick_size. now rewrite Epos. }
      rewrite Et. repeat split.
      + lra.
      + exists (- Qceiling (double (double start * s)))%Z. rewrite inject_Z_opp. field. lra.
      + exists (- Qfloor (double (double stop * s)))%Z. rewrite inject_Z_opp. field. lra. }
  destruct pre as [p|].
  - destruct (num_eq (tickIncrement start stop 10) p) eqn:Eeq.
    + injection H as <- <-.
      destruct (Hpre p eq_refl) as (s & -> & Hs & Hst & Hsp).
      destruct (tickIncrement start stop 10) as [| |s'] eqn:Et; try discriminate.
      cbn [num_eq] in Eeq. apply Qeq_bool_iff in Eeq.
      exists s'. repeat split.
      * lra.
      * eapply whole_ticks_comp; [|exact Hst]. apply tick_size_comp. lra.
      * eapply whole_ticks_comp; [|exact Hsp]. apply tick_size_comp. lra.
    + destruct (tickIncrement start stop 10) as [| |s] eqn:Et; try discriminate.
      now apply (Hstep s).
  - destruct (tickIncrement start stop 10) as [| |s] eqn:Et; try discriminate.
    now apply (Hstep s).
Qed.

(** X15.  When [nice] changes an ascending domain, its new bounds are
    whole multiples of the tick distance that [tickIncrement] gives for
    the new domain, so ticks fall on both ends of the axis. *)
Theorem niced_bounds_on_ticks (a b : Q) :
  a <= b ->
  nice (a, b) = (a, b)
  \/ exists s,
       tickIncrement (fst (nice (a, b))) (snd (nice (a, b))) 10 = Fin s
       /\ ~ s == 0
       /\ whole_ticks (fst (nice (a, b))) (tick_size s)
       /\ whole_ticks (snd (nice (a, b))) (tick_size s).
Proof.
  intros Hab. unfold nice.
  destruct (Qlt_bool b a) eqn:E.
  { apply Qlt_bool_iff in E. lra. }
  destruct (nice_loop 10 a b None) as [[a' b']|] eqn:En; [|now left].
  right. cbn [fst snd].
  apply (nice_loop_whole_ticks _ _ _ _ _ _ En). intros p. discriminate.
Qed.

Lemma niced_bounds_on_ticks_witness :
  nice (17342, 119873) = (17342, 119873)
  \/ exists s,
       tickIncrement (fst (nice (17342, 119873))) (snd (nice (17342, 119873))) 10 = Fin s
       /\ ~ s == 0
       /\ whole_ticks (fst (nice (17342, 119873))) (tick_size s)
       /\ whole_ticks (snd (nice (17342, 119873))) (tick_size s).
Proof.
  apply (niced_bounds_on_ticks 17342 119873). vm_compute. discriminate.
Defined.

(** X16.  A domain whose two bounds are equal (every retained pit stop
    lasted the same) is left as it is by [nice], and the scale maps
    every value to the middle of its range. *)
Theorem degenerate_domain_maps_to_middle (a b r0 r1 v : Q) :
  a == b ->
  scale_domain (yScale (a, b) (r0, r1)) = (a, b)
  /\ scale_apply (yScale (a, b) (r0, r1)) v == (r0 + r1) / 2.
Proof.
  intros E.
  assert (Hn : nice (a, b) = (a, b)).
  { unfold nice.
    destruct (Qlt_bool b a) eqn:E1.
    { apply Qlt_bool_iff in E1. lra. }
    cbn [nice_loop]. now rewrite (tickIncrement_degenerate _ _ E). }
  unfold scale_apply, yScale, scale_nice, scaleLinear. cbn [scale_domain scale_range].
  rewrite Hn. split; [reflexivity|].
  unfold bimap.
  destruct (Qlt_bool b a) eqn:E1.
  { apply Qlt_bool_iff in E1. lra. }
  unfold interpolateNumber, normalize.
  assert (Ez : b - a == 0) by lra.
  apply Qeq_bool_iff in Ez. rewrite Ez. field.
Qed.

Lemma degenerate_domain_maps_to_middle_witness :
  scale_apply (yScale (21345, 21345) (460, 0)) 21345 == (460 + 0) / 2.
Proof.
  refine (proj2 (degenerate_domain_maps_to_middle 21345 21345 460 0 21345 _)).
  reflexivity.
Defined.

Local Close Scope Q_scope.

(** ** Axes, dots and the whole script *)

(** X17.  Each evaluation of the y-axis expression flips [range.y]: a
    second evaluation puts the store back as it was, and the scale it
    builds is on the range as constructed. *)
Theorem yAxis_twice_restores_range (st : Store) :
  snd (yAxis (snd (yAxis st))) = st
  /\ fst (yAxis (snd (yAxis st))) = yScale_value (domain_y (st_domain st)) (st_range_y st)
  /\ fst (yAxis st) =
       yScale_value (domain_y (st_domain st)) (snd (st_range_y st), fst (st_range_y st)).
Proof. destruct st as [r d c rs ds dm rx [y0 y1]]. repeat split. Qed.

(** X18.  The dots are placed by the scales of the axes: the cx and cy
    of every dot are the x-axis scale and the y-axis scale, as built
    just before, applied to the x and the y of its observation. *)
Theorem dots_placed_by_axis_scales
    (xScale : Date * Date -> Q * Q -> Date -> number) (st : Store) :
  fst (chart xScale st) =
    map (fun o => (fst (fst (axes xScale st)) (x o), snd (fst (axes xScale st)) (y o)))
        (st_data st).
Proof. destruct st as [r d c rs ds dm rx [y0 y1]]. reflexivity. Qed.

Lemma chart_init_store (xScale : Date * Date -> Q * Q -> Date -> number)
    (t : Tables) (obs : list Observation) (dm : Domain) :
  chart xScale (init_store t obs dm) =
    (map (fun o => (xScale (domain_x dm) (inject_Z 0, inject_Z innerWidth) (x o),
                    yScale_value (domain_y dm) (inject_Z innerHeight, inject_Z 0) (y o)))
         obs,
     assign (init_store t obs dm) range_y (inject_Z innerHeight, inject_Z 0)).
Proof. reflexivity. Qed.

Lemma Forall2_elem_of_r {A B} (R : A -> B -> Prop) (l : list A) (k : list B) (b : B) :
  Forall2 R l k -> b ∈ k -> exists a, a ∈ l /\ R a b.
Proof.
  induction 1 as [|a0 b0 l k Hab _ IH]; intros Hb.
  - now apply elem_of_nil in Hb.
  - apply elem_of_cons in Hb as [->|Hb].
    + exists a0. split; [apply list_elem_of_here | exact Hab].
    + destruct (IH Hb) as (a & Ha & HR). exists a. split; [now apply list_elem_of_further | exact HR].
Qed.

Lemma Forall2_elem_of_l {A B} (R : A -> B -> Prop) (l : list A) (k : list B) (a : A) :
  Forall2 R l k -> a ∈ l -> exists b, b ∈ k /\ R a b.
Proof.
  induction 1 as [|a0 b0 l k Hab _ IH]; intros Ha.
  - now apply elem_of_nil in Ha.
  - apply elem_of_cons in Ha as [->|Ha].
    + exists b0. split; [apply list_elem_of_here | exact Hab].
    + destruct (IH Ha) as (b & Hb & HR). exists b. split; [now apply list_elem_of_further | exact HR].
Qed.

Lemma data_y_not_NaN (host : string -> number) (t : Tables) (pitstops : list Row)
    (obs : list Observation) (o : Observation) :
  data host t pitstops = Normal obs -> o ∈ obs -> is_NaN (y o) = false.
Proof.
  intros H Ho. apply Array_map_Normal in H.
  destruct (Forall2_elem_of_r _ _ _ _ H Ho) as (d & Hd & Hdo).
  apply list_elem_of_filter in Hd as [Hk _].
  rewrite (observation_y _ _ _ _ Hdo).
  unfold retained in Hk. now destruct (num_lt_comparable _ _ Hk).
Qed.

(** X19.  The script throws exactly in two cases: a retained pit stop
    does not resolve, or no retained pit stop has a race with a valid
    date, which includes the case where the filter retains nothing. *)
Theorem page_throws_iff
    (xScale : Date * Date -> Q * Q -> Date -> number) (host : string -> number)
    (t : Tables) (pitstops : list Row) :
  page xScale host t pitstops = Throw TypeError <->
  (exists d, d ∈ pitstops /\ retained d = true /\ observation host t d = Throw TypeError)
  \/ (forall d o, d ∈ pitstops -> retained d = true ->
        observation host t d = Normal o -> is_NaN (x o) = true).
Proof.
  unfold page.
  destruct (data host t pitstops) as [obs|[]] eqn:Ed.
  - pose proof (Array_map_Normal _ _ _ Ed) as HF.
    cbn [mbind completion_bind].
    destruct (domain obs) as [dm|[]] eqn:Edm; cbn [mbind completion_bind].
    + split; [discriminate|]. intros [(d & Hd & Hk & Ho)|Hall].
      * assert (HT : data host t pitstops = Throw TypeError).
        { unfold data. apply Array_map_Throw. exists d. split; [|exact Ho].
          now apply list_elem_of_filter. }
        congruence.
      * assert (HT : domain obs = Throw TypeError).
        { apply domain_Throw. left. intros o Ho.
          destruct (Forall2_elem_of_r _ _ _ _ HF Ho) as (d & Hd & Hdo).
          apply list_elem_of_filter in Hd as [Hk Hd]. exact (Hall d o Hd Hk Hdo). }
        congruence.
    + split; [|reflexivity]. intros _. right. intros d o Hd Hk Hdo.
      assert (Hdk : d ∈ filter (fun d => retained d = true) pitstops)
        by now apply list_elem_of_filter.
      destruct (Forall2_elem_of_l _ _ _ _ HF Hdk) as (o' & Ho' & Hdo').
      assert (o' = o) by congruence. subst o'.
      apply domain_Throw in Edm as [Hx|Hy]; [now apply Hx|].
      pose proof (data_y_not_NaN _ _ _ _ _ Ed Ho') as Hn.
      rewrite (Hy o Ho') in Hn. discriminate.
  - cbn [mbind completion_bind]. split; [|reflexivity]. intros _. left.
    unfold data in Ed. apply Array_map_Throw in Ed as (d & Hd & Ho).
    apply list_elem_of_filter in Hd as [Hk Hd]. now exists d.
Qed.

Lemma page_throws_iff_witness :
  page blank_xScale strict_host example_tables [garbled_pitstop] = Throw TypeError.
Proof.
  refine (proj2 (page_throws_iff blank_xScale strict_host example_tables
                   [garbled_pitstop]) _).
  right. intros d o Hd Hk. apply list_elem_of_singleton in Hd. subst d.
  vm_compute in Hk. discriminate.
Defined.

(** X20.  When the script succeeds there is one dot per retained pit
    stop, in the order of the pit-stop table, [range.y] ends as
    [innerHeight, 0], and the cy of each dot is the y scale of the
    stored domain and of that reversed range applied to the coerced
    milliseconds of its pit stop. *)
Theorem page_dots_follow_retained
    (xScale : Date * Date -> Q * Q -> Date -> number) (host : string -> number)
    (t : Tables) (pitstops : list Row) (ds : list (number * option Q)) (st : Store) :
  page xScale host t pitstops = Normal (ds, st) ->
  length ds = length (filter (fun d => retained d = true) pitstops)
  /\ st_range_y st = (inject_Z innerHeight, inject_Z 0)
  /\ domain (st_data st) = Normal (st_domain st)
  /\ Forall2 (fun d c =>
               snd c = yScale_value (domain_y (st_domain st))
                         (inject_Z innerHeight, inject_Z 0)
                         (Number (field d "milliseconds")))
             (filter (fun d => retained d = true) pitstops) ds.
Proof.
  unfold page.
  destruct (data host t pitstops) as [obs|] eqn:Ed; [|discriminate].
  cbn [mbind completion_bind].
  destruct (domain obs) as [dm|] eqn:Edm; [|discriminate].
  cbn [mbind completion_bind]. rewrite chart_init_store. intros [= <- <-].
  apply Array_map_Normal in Ed.
  split; [|split; [|split]].
  - rewrite length_map. symmetry. exact (Forall2_length _ _ _ Ed).
  - reflexivity.
  - exact Edm.
  - cbn [st_domain assign init_store]. clear Edm.
    induction Ed as [|d o kept obs' Hd _ IH]; cbn [map]; constructor.
    + cbn [snd]. now rewrite (observation_y _ _ _ _ Hd).
    + exact IH.
Qed.

Lemma page_dots_follow_retained_witness :
  length (fst (chart blank_xScale example_store)) =
  length (filter (fun d => retained d = true) [example_pitstop]).
Proof.
  refine (proj1 (page_dots_follow_retained blank_xScale strict_host example_tables
                   [example_pitstop] (fst (chart blank_xScale example_store))
                   (snd (chart blank_xScale example_store)) _)).
  vm_compute. reflexivity.
Defined.

(** X21.  A pit stop whose milliseconds cell is empty or blank counts as
    0 milliseconds: the filter retains it, and the observation built
    from it has y = 0. *)
Theorem blank_milliseconds_count_as_zero (host : string -> number) (t : Tables)
    (d : Row) (s : string) :
  field d "milliseconds" = Some s ->
  trim (list_ascii_of_string s) = [] ->
  retained d = true
  /\ (forall pitstops : list Row,
        d ∈ pitstops -> d ∈ filter (fun d => retained d = true) pitstops)
  /\ (forall o, observation host t d = Normal o -> y o = Fin 0).
Proof.
  intros Hs Ht.
  assert (Hn : Number (field d "milliseconds") = Fin 0).
  { rewrite Hs. unfold Number, StringToNumber. now rewrite Ht. }
  assert (Hr : retained d = true) by (unfold retained; now rewrite Hn).
  repeat split.
  - exact Hr.
  - intros pitstops Hd. now apply list_elem_of_filter.
  - intros o Ho. now rewrite (observation_y _ _ _ _ Ho).
Qed.

Lemma blank_milliseconds_count_as_zero_witness :
  retained (row [("raceId", "1"); ("driverId", "10"); ("milliseconds", " "); ("lap", "5")])
  = true.
Proof.
  refine (proj1 (blank_milliseconds_count_as_zero strict_host example_tables
    (row [("raceId", "1"); ("driverId", "10"); ("milliseconds", " "); ("lap", "5")])
    " " _ _)); vm_compute; reflexivity.
Defined.
